(** * MyMoneyMap: the calculator formulas and their input schemas

    A shallow embedding of [client/src/utils/calculations.ts], of
    [generateAmortizationSchedule] and [getDisplaySchedule] from
    [client/src/calculators/LoanAmortizationCalculator.tsx], of the zod
    schemas of the EMI and loan-amortization forms, and of the forms that
    call the calculation functions (income tax, HRA, break-even, retirement,
    car loan) with their schemas and [onSubmit] handlers.

    Numbers.  A TypeScript [number] is modelled by [number]: an exact rational,
    [+Infinity], [-Infinity] or [NaN].  The arithmetic is the IEEE-754
    arithmetic of JavaScript with the rounding error of binary64 left out:
    finite results are exact (and never overflow), the special values
    propagate the way they do in JavaScript.  Negative zero is not
    distinguished from zero, so a non-zero number divided by zero is the
    infinity that has the sign of the numerator.  Decimal literals of the
    source ([0.05], [7.1]) are the rationals they denote.  Finite results
    are kept in lowest terms ([Qred]), which keeps the functions runnable;
    two numbers are compared with [=n=], equality of their values. *)

From Stdlib Require Import ZArith QArith Qround Qpower Qabs Qminmax Lqa Lia.
From Stdlib Require Import List Bool String DecimalString Morphisms Setoid.
Import ListNotations.

Open Scope Q_scope.

(** ** JavaScript numbers *)

Inductive number : Type :=
| NaN  : number
| PInf : number
| NInf : number
| Fin  : Q -> number.

Arguments Fin q%_Q.

Declare Scope js_scope.
Delimit Scope js_scope with js.
Bind Scope js_scope with number.

(** The sign of a product from the signs of its factors; [Eq] is zero. *)
Definition mul_sign (a b : comparison) : comparison :=
  match a, b with
  | Eq, _ | _, Eq => Eq
  | Gt, Gt | Lt, Lt => Gt
  | _, _ => Lt
  end.

(** An infinite result of the given sign; a zero sign is the invalid
    operation ([0 * Infinity], [0 / 0]). *)
Definition inf_of_sign (c : comparison) : number :=
  match c with
  | Gt => PInf
  | Lt => NInf
  | Eq => NaN
  end.

Definition num_sign (x : number) : comparison :=
  match x with
  | NaN => Eq
  | PInf => Gt
  | NInf => Lt
  | Fin q => q ?= 0
  end.

Definition num_neg (x : number) : number :=
  match x with
  | NaN => NaN
  | PInf => NInf
  | NInf => PInf
  | Fin q => Fin (- q)
  end.

Definition num_add (x y : number) : number :=
  match x, y with
  | NaN, _ | _, NaN => NaN
  | PInf, NInf | NInf, PInf => NaN
  | PInf, _ | _, PInf => PInf
  | NInf, _ | _, NInf => NInf
  | Fin a, Fin b => Fin (Qred (a + b))
  end.

Definition num_sub (x y : number) : number := num_add x (num_neg y).

Definition num_mul (x y : number) : number :=
  match x, y with
  | NaN, _ | _, NaN => NaN
  | Fin a, Fin b => Fin (Qred (a * b))
  | _, _ => inf_of_sign (mul_sign (num_sign x) (num_sign y))
  end.

Definition num_div (x y : number) : number :=
  match x, y with
  | NaN, _ | _, NaN => NaN
  | Fin a, Fin b =>
      if Qeq_bool b 0 then inf_of_sign (a ?= 0) else Fin (Qred (a / b))
  | Fin _, _ => Fin 0
  | _, Fin b =>
      inf_of_sign (mul_sign (num_sign x) (if Qle_bool 0 b then Gt else Lt))
  | _, _ => NaN
  end.

(** [x <= y]: every comparison with [NaN] is false. *)
Definition num_le (x y : number) : bool :=
  match x, y with
  | NaN, _ | _, NaN => false
  | NInf, _ | _, PInf => true
  | PInf, _ | _, NInf => false
  | Fin a, Fin b => Qle_bool a b
  end.

Definition num_ge (x y : number) : bool := num_le y x.

(** [x === y] on numbers: [NaN] is not equal to itself. *)
Definition num_seq (x y : number) : bool :=
  match x, y with
  | PInf, PInf | NInf, NInf => true
  | Fin a, Fin b => Qeq_bool a b
  | _, _ => false
  end.

Notation "x + y" := (num_add x y) : js_scope.
Notation "x - y" := (num_sub x y) : js_scope.
Notation "x * y" := (num_mul x y) : js_scope.
Notation "x / y" := (num_div x y) : js_scope.
Notation "x <= y" := (num_le x y) : js_scope.
Notation "x >= y" := (num_ge x y) : js_scope.
Notation "x === y" := (num_seq x y) (at level 70, no associativity) : js_scope.

(** [Math.max(x, y)] and [Math.min(x, y, z)]: [NaN] when an argument is. *)
Definition Math_max (x y : number) : number :=
  match x, y with
  | NaN, _ | _, NaN => NaN
  | _, _ => if num_le x y then y else x
  end.

Definition Math_min2 (x y : number) : number :=
  match x, y with
  | NaN, _ | _, NaN => NaN
  | _, _ => if num_le x y then x else y
  end.

Definition Math_min (x y z : number) : number := Math_min2 (Math_min2 x y) z.

(** Nearest integer, a half rounding up: [Math.round(2.5) = 3],
    [Math.round(-2.5) = -2]. *)
Definition round_half_up (q : Q) : Z := Qfloor (q + (1 # 2)).

Definition Math_round (x : number) : number :=
  match x with
  | Fin q => Fin (inject_Z (round_half_up q))
  | _ => x
  end.

Definition Math_ceil (x : number) : number :=
  match x with
  | Fin q => Fin (inject_Z (Qceiling q))
  | _ => x
  end.

(** Structural equality of two numbers: the same special value or the same
    rational.  Unlike [===] it relates [NaN] to itself. *)
Definition num_eq (x y : number) : Prop :=
  match x, y with
  | NaN, NaN | PInf, PInf | NInf, NInf => True
  | Fin a, Fin b => a == b
  | _, _ => False
  end.

Infix "=n=" := num_eq (at level 70, no associativity).

Definition is_finite (x : number) : Prop :=
  match x with
  | Fin _ => True
  | _ => False
  end.

(** [x >= 0] as a proposition. *)
Definition nonneg (x : number) : Prop := num_ge x (Fin 0) = true.

(** The rational is an integer. *)
Definition is_integer (q : Q) : bool := Qeq_bool q (inject_Z (Qfloor q)).

(** [for (let i = start; i <= bound; i++) s = body(i, s)], with fuel: [None]
    when the fuel runs out before the test fails. *)
Fixpoint for_loop {S : Type} (fuel : nat) (i bound : number)
    (body : number -> S -> S) (s : S) : option S :=
  match fuel with
  | O => None
  | Datatypes.S fuel' =>
      if num_le i bound
      then for_loop fuel' (num_add i (Fin 1)) bound body (body i s)
      else Some s
  end.

(** Fuel that lets a loop counting up from 1 reach a test that fails.  With
    the bound [Infinity] the test never fails and the loop does not return:
    no fuel is given. *)
Definition loop_fuel (bound : number) : nat :=
  match bound with
  | Fin q => Datatypes.S (Z.to_nat (Qfloor q))
  | PInf => 0%nat
  | _ => 1%nat
  end.

(** ** Result records *)

Module EMIResult.
Record t : Type := mk {
  emi : number;
  totalAmount : number;
  totalInterest : number
}.
End EMIResult.

Module SIPResult.
Record t : Type := mk {
  futureValue : number;
  totalInvestment : number;
  totalReturns : number
}.
End SIPResult.

Module CompoundResult.
Record t : Type := mk {
  amount : number;
  interest : number;
  principal : number
}.
End CompoundResult.

Module PPFResult.
Record t : Type := mk {
  maturityAmount : number;
  totalInvestment : number;
  interest : number
}.
End PPFResult.

Module RetirementResult.
Record t : Type := mk {
  requiredCorpus : number;
  monthlySIP : number;
  futureMonthlyExpenses : number;
  currentValue : number
}.
End RetirementResult.

Module FIREResult.
Record t : Type := mk {
  fireNumber : number;
  yearsToFire : number;
  fireAge : number;
  shortfall : number
}.
End FIREResult.

Module TaxResult.
Record t : Type := mk {
  tax : number;
  cess : number;
  totalTax : number;
  netIncome : number
}.
End TaxResult.

Module HRAResult.
Record t : Type := mk {
  hraExemption : number;
  taxableHRA : number;
  actualRent : number;
  basicSalary : number
}.
End HRAResult.

Module EmergencyResult.
Record t : Type := mk {
  recommendedAmount : number;
  months : number;
  monthlyExpenses : number
}.
End EmergencyResult.

Module BreakEvenResult.
Record t : Type := mk {
  breakEvenUnits : number;
  breakEvenRevenue : number;
  contributionMargin : number;
  contributionMarginPercent : number
}.
End BreakEvenResult.

Module AmortizationRow.
Record t : Type := mk {
  month : number;
  emi : number;
  principalPayment : number;
  interestPayment : number;
  remainingBalance : number;
  cumulativePrincipal : number;
  cumulativeInterest : number
}.
End AmortizationRow.

Inductive Regime : Type := Old | New.

Inductive JobStability : Type := High | Medium | Low.

(** A parameter with a default value: [None] is the argument left out. *)
Definition with_default {A : Type} (d : A) (o : option A) : A :=
  match o with
  | Some a => a
  | None => d
  end.

(** ** The calculation functions *)

Section Calculations.

(** [Math.pow] outside the case of a finite base with an integer exponent,
    and [Math.log]: functions of their arguments that are left abstract. *)
Variable pow_other : number -> number -> number.
Variable Math_log : number -> number.

(** [Math.pow(x, y)]: exact for a finite base and an integer exponent
    ([Math.pow(0, -1)] is [Infinity]). *)
Definition Math_pow (x y : number) : number :=
  match x, y with
  | Fin b, Fin e =>
      if is_integer e then
        if (0 <=? Qfloor e)%Z then Fin (Qred (b ^ Qfloor e))
        else num_div (Fin 1) (Fin (b ^ (- Qfloor e)))
      else pow_other x y
  | _, _ => pow_other x y
  end.

(** The expression both [calculateEMI] and [generateAmortizationSchedule]
    compute the fixed payment with:
    [(principal * monthlyRate * Math.pow(1 + monthlyRate, months)) /
     (Math.pow(1 + monthlyRate, months) - 1)]. *)
Definition emi_formula (principal monthlyRate months : number) : number :=
  ((principal * monthlyRate * Math_pow (Fin 1 + monthlyRate) months) /
   (Math_pow (Fin 1 + monthlyRate) months - Fin 1))%js.

(** calculations.ts, [calculateEMI]. *)
Definition calculateEMI (principal rate tenure : number) : EMIResult.t :=
  let monthlyRate := (rate / (Fin 12 * Fin 100))%js in
  let months := (tenure * Fin 12)%js in
  if (monthlyRate === Fin 0)%js then
    {| EMIResult.emi := (principal / months)%js;
       EMIResult.totalAmount := principal;
       EMIResult.totalInterest := Fin 0 |}
  else
    let emi := emi_formula principal monthlyRate months in
    {| EMIResult.emi := Math_round emi;
       EMIResult.totalAmount := Math_round (emi * months)%js;
       EMIResult.totalInterest := Math_round ((emi * months) - principal)%js |}.

(** calculations.ts, [calculateSIP]. *)
Definition calculateSIP (monthlyAmount rate tenure : number) : SIPResult.t :=
  let monthlyRate := (rate / (Fin 12 * Fin 100))%js in
  let months := (tenure * Fin 12)%js in
  let futureValue :=
    (monthlyAmount *
     ((Math_pow (Fin 1 + monthlyRate) months - Fin 1) / monthlyRate) *
     (Fin 1 + monthlyRate))%js in
  let totalInvestment := (monthlyAmount * months)%js in
  let totalReturns := (futureValue - totalInvestment)%js in
  {| SIPResult.futureValue := Math_round futureValue;
     SIPResult.totalInvestment := Math_round totalInvestment;
     SIPResult.totalReturns := Math_round totalReturns |}.

(** calculations.ts, [calculateCompoundInterest]; [compoundFrequency]
    defaults to 1. *)
Definition calculateCompoundInterest (principal rate time : number)
    (compoundFrequency_opt : option number) : CompoundResult.t :=
  let compoundFrequency := with_default (Fin 1) compoundFrequency_opt in
  let amount :=
    (principal *
     Math_pow (Fin 1 + (rate / Fin 100) / compoundFrequency)
              (compoundFrequency * time))%js in
  let interest := (amount - principal)%js in
  {| CompoundResult.amount := Math_round amount;
     CompoundResult.interest := Math_round interest;
     CompoundResult.principal := Math_round principal |}.

(** calculations.ts, [calculatePPF]; [tenure] defaults to 15.  [None] is the
    loop that does not return. *)
Definition calculatePPF (yearlyAmount : number) (tenure_opt : option number)
    : option PPFResult.t :=
  let tenure := with_default (Fin 15) tenure_opt in
  let rate := Fin 7.1 in
  let annualRate := (rate / Fin 100)%js in
  match
    for_loop (loop_fuel tenure) (Fin 1) tenure
      (fun year maturityAmount =>
         (maturityAmount +
          yearlyAmount * Math_pow (Fin 1 + annualRate) (tenure - year + Fin 1))%js)
      (Fin 0)
  with
  | None => None
  | Some maturityAmount =>
      let totalInvestment := (yearlyAmount * tenure)%js in
      let interest := (maturityAmount - totalInvestment)%js in
      Some {| PPFResult.maturityAmount := Math_round maturityAmount;
              PPFResult.totalInvestment := Math_round totalInvestment;
              PPFResult.interest := Math_round interest |}
  end.

(** calculations.ts, [calculateRetirementCorpus]. *)
Definition calculateRetirementCorpus
    (currentAge retirementAge monthlyExpenses inflationRate expectedReturn : number)
    : RetirementResult.t :=
  let yearsToRetirement := (retirementAge - currentAge)%js in
  let postRetirementYears := (Fin 85 - retirementAge)%js in
  let futureMonthlyExpenses :=
    (monthlyExpenses *
     Math_pow (Fin 1 + inflationRate / Fin 100) yearsToRetirement)%js in
  let annualExpensesAtRetirement := (futureMonthlyExpenses * Fin 12)%js in
  let requiredCorpus := (annualExpensesAtRetirement * Fin 25)%js in
  let monthlyRate := (expectedReturn / (Fin 12 * Fin 100))%js in
  let months := (yearsToRetirement * Fin 12)%js in
  let monthlySIP :=
    (requiredCorpus /
     ((Math_pow (Fin 1 + monthlyRate) months - Fin 1) / monthlyRate *
      (Fin 1 + monthlyRate)))%js in
  {| RetirementResult.requiredCorpus := Math_round requiredCorpus;
     RetirementResult.monthlySIP := Math_round monthlySIP;
     RetirementResult.futureMonthlyExpenses := Math_round futureMonthlyExpenses;
     RetirementResult.currentValue := Math_round monthlyExpenses |}.

(** calculations.ts, [calculateFIRE]. *)
Definition calculateFIRE
    (currentAge currentSavings monthlyExpenses monthlySavings expectedReturn : number)
    : FIREResult.t :=
  let annualExpenses := (monthlyExpenses * Fin 12)%js in
  let fireNumber := (annualExpenses * Fin 25)%js in
  if (currentSavings >= fireNumber)%js then
    {| FIREResult.fireNumber := Math_round fireNumber;
       FIREResult.yearsToFire := Fin 0;
       FIREResult.fireAge := currentAge;
       FIREResult.shortfall := Fin 0 |}
  else
    let shortfall := (fireNumber - currentSavings)%js in
    let monthlyRate := (expectedReturn / (Fin 12 * Fin 100))%js in
    let months :=
      (Math_log (Fin 1 + (shortfall * monthlyRate) / monthlySavings) /
       Math_log (Fin 1 + monthlyRate))%js in
    let yearsToFire := Math_ceil (months / Fin 12)%js in
    {| FIREResult.fireNumber := Math_round fireNumber;
       FIREResult.yearsToFire := yearsToFire;
       FIREResult.fireAge := (currentAge + yearsToFire)%js;
       FIREResult.shortfall := Math_round shortfall |}.

(** calculations.ts, [calculateIncomeTax]; [regime] defaults to ['new']. *)
Definition calculateIncomeTax (grossIncome : number) (regime_opt : option Regime)
    : TaxResult.t :=
  let regime := with_default New regime_opt in
  let tax :=
    match regime with
    | New =>
        if (grossIncome <= Fin 300000)%js then Fin 0
        else if (grossIncome <= Fin 600000)%js then
          ((grossIncome - Fin 300000) * Fin 0.05)%js
        else if (grossIncome <= Fin 900000)%js then
          (Fin 15000 + (grossIncome - Fin 600000) * Fin 0.10)%js
        else if (grossIncome <= Fin 1200000)%js then
          (Fin 45000 + (grossIncome - Fin 900000) * Fin 0.15)%js
        else if (grossIncome <= Fin 1500000)%js then
          (Fin 90000 + (grossIncome - Fin 1200000) * Fin 0.20)%js
        else
          (Fin 150000 + (grossIncome - Fin 1500000) * Fin 0.30)%js
    | Old =>
        if (grossIncome <= Fin 250000)%js then Fin 0
        else if (grossIncome <= Fin 500000)%js then
          ((grossIncome - Fin 250000) * Fin 0.05)%js
        else if (grossIncome <= Fin 1000000)%js then
          (Fin 12500 + (grossIncome - Fin 500000) * Fin 0.20)%js
        else
          (Fin 112500 + (grossIncome - Fin 1000000) * Fin 0.30)%js
    end in
  let cess := (tax * Fin 0.04)%js in
  let totalTax := (tax + cess)%js in
  {| TaxResult.tax := Math_round tax;
     TaxResult.cess := Math_round cess;
     TaxResult.totalTax := Math_round totalTax;
     TaxResult.netIncome := Math_round (grossIncome - totalTax)%js |}.

(** calculations.ts, [calculateHRAExemption]. *)
Definition calculateHRAExemption (salary hra rentPaid : number)
    (isMetroCity : bool) : HRAResult.t :=
  let basicSalary := (salary * Fin 0.5)%js in
  let exemption1 := hra in
  let exemption2 := (basicSalary * (if isMetroCity then Fin 0.5 else Fin 0.4))%js in
  let exemption3 := Math_max (Fin 0) (rentPaid - basicSalary * Fin 0.1)%js in
  let hraExemption := Math_min exemption1 exemption2 exemption3 in
  let taxableHRA := (hra - hraExemption)%js in
  {| HRAResult.hraExemption := Math_round hraExemption;
     HRAResult.taxableHRA := Math_round taxableHRA;
     HRAResult.actualRent := Math_round rentPaid;
     HRAResult.basicSalary := Math_round basicSalary |}.

(** calculations.ts, [calculateEmergencyFund]. *)
Definition calculateEmergencyFund (monthlyExpenses dependents : number)
    (jobStability : JobStability) (hasInsurance : bool) : EmergencyResult.t :=
  let multiplier := Fin 6 in
  let multiplier :=
    match jobStability with
    | Low => (multiplier + Fin 3)%js
    | Medium => (multiplier + Fin 1)%js
    | High => multiplier
    end in
  let multiplier := (multiplier + dependents * Fin 0.5)%js in
  let multiplier :=
    if negb hasInsurance then (multiplier + Fin 1)%js else multiplier in
  let emergencyFund := (monthlyExpenses * multiplier)%js in
  {| EmergencyResult.recommendedAmount := Math_round emergencyFund;
     EmergencyResult.months := Math_round multiplier;
     EmergencyResult.monthlyExpenses := Math_round monthlyExpenses |}.

(** calculations.ts, [calculateBreakEven]. *)
Definition calculateBreakEven (fixedCosts variableCostPerUnit pricePerUnit : number)
    : BreakEvenResult.t :=
  let contributionMargin := (pricePerUnit - variableCostPerUnit)%js in
  let breakEvenUnits := (fixedCosts / contributionMargin)%js in
  let breakEvenRevenue := (breakEvenUnits * pricePerUnit)%js in
  {| BreakEvenResult.breakEvenUnits := Math_round breakEvenUnits;
     BreakEvenResult.breakEvenRevenue := Math_round breakEvenRevenue;
     BreakEvenResult.contributionMargin := Math_round contributionMargin;
     BreakEvenResult.contributionMarginPercent :=
       Math_round ((contributionMargin / pricePerUnit) * Fin 100)%js |}.

(** ** The amortization schedule *)

(** The variables the loop of [generateAmortizationSchedule] updates. *)
Record AmortState : Type := mkAmortState {
  st_remainingBalance : number;
  st_cumulativePrincipal : number;
  st_cumulativeInterest : number;
  st_schedule : list AmortizationRow.t
}.

(** One turn of the loop body, for the month [month]. *)
Definition amortization_step (emi monthlyRate : number) (month : number)
    (st : AmortState) : AmortState :=
  let interestPayment := (st_remainingBalance st * monthlyRate)%js in
  let principalPayment := (emi - interestPayment)%js in
  let remainingBalance :=
    Math_max (Fin 0) (st_remainingBalance st - principalPayment)%js in
  let cumulativePrincipal := (st_cumulativePrincipal st + principalPayment)%js in
  let cumulativeInterest := (st_cumulativeInterest st + interestPayment)%js in
  {| st_remainingBalance := remainingBalance;
     st_cumulativePrincipal := cumulativePrincipal;
     st_cumulativeInterest := cumulativeInterest;
     st_schedule :=
       st_schedule st ++
       [ {| AmortizationRow.month := month;
            AmortizationRow.emi := Math_round emi;
            AmortizationRow.principalPayment := Math_round principalPayment;
            AmortizationRow.interestPayment := Math_round interestPayment;
            AmortizationRow.remainingBalance := Math_round remainingBalance;
            AmortizationRow.cumulativePrincipal := Math_round cumulativePrincipal;
            AmortizationRow.cumulativeInterest := Math_round cumulativeInterest |} ]
  |}.

(** LoanAmortizationCalculator.tsx, [generateAmortizationSchedule]; the
    fixed payment is computed without a guard for a zero rate.  [None] is the
    loop that does not return. *)
Definition generateAmortizationSchedule (loanAmount interestRate loanTenure : number)
    : option (list AmortizationRow.t) :=
  let monthlyRate := (interestRate / (Fin 12 * Fin 100))%js in
  let totalMonths := (loanTenure * Fin 12)%js in
  let emi := emi_formula loanAmount monthlyRate totalMonths in
  option_map st_schedule
    (for_loop (loop_fuel totalMonths) (Fin 1) totalMonths
       (amortization_step emi monthlyRate)
       {| st_remainingBalance := loanAmount;
          st_cumulativePrincipal := Fin 0;
          st_cumulativeInterest := Fin 0;
          st_schedule := [] |}).

End Calculations.

(** ** Input schemas and form submission

    The zod schemas of the two loan forms.  [z.number()] refuses [NaN] with
    a type issue; [.min(b, msg)] raises the
    issue [msg] when the value is below [b], [.max(b, msg)] when it is above.
    [form.handleSubmit(onSubmit)] calls [onSubmit] with the parsed data only
    when the schema raised no issue; otherwise the issues become the field
    errors that [<FormMessage />] shows and [onSubmit] is not called. *)

Open Scope string_scope.

Inductive Check : Type :=
| Min (bound : Q) (message : string)
| Max (bound : Q) (message : string).

(** [x < y] on numbers. *)
Definition num_lt (x y : number) : bool :=
  match x, y with
  | NaN, _ | _, NaN => false
  | _, _ => negb (num_le y x)
  end.

Definition run_check (v : number) (c : Check) : list string :=
  match c with
  | Min b msg => if num_lt v (Fin b) then [msg] else []
  | Max b msg => if num_lt (Fin b) v then [msg] else []
  end.

(** The issues [z.number()] with the given checks raises on [v]. *)
Definition parse_number (checks : list Check) (v : number) : list string :=
  match v with
  | NaN => ["Expected number, received nan"]
  | _ => flat_map (run_check v) checks
  end.

Inductive Field : Type := loanAmount | interestRate | loanTenure.

Record LoanFormData : Type := mkLoanFormData {
  data_loanAmount : number;
  data_interestRate : number;
  data_loanTenure : number
}.

Record LoanSchema : Type := mkLoanSchema {
  schema_loanAmount : list Check;
  schema_interestRate : list Check;
  schema_loanTenure : list Check
}.

(** part_001 (EMI calculator), [emiSchema]. *)
Definition emiSchema : LoanSchema :=
  {| schema_loanAmount := [Min 1 "Loan amount must be greater than 0"];
     schema_interestRate :=
       [Min 0.1 "Interest rate must be at least 0.1%";
        Max 50 "Interest rate cannot exceed 50%"];
     schema_loanTenure :=
       [Min 1 "Loan tenure must be at least 1 year";
        Max 50 "Loan tenure cannot exceed 50 years"] |}.

(** LoanAmortizationCalculator.tsx, [amortizationSchema]. *)
Definition amortizationSchema : LoanSchema :=
  {| schema_loanAmount := [Min 1 "Loan amount must be greater than 0"];
     schema_interestRate :=
       [Min 0.1 "Interest rate must be at least 0.1%";
        Max 50 "Interest rate cannot exceed 50%"];
     schema_loanTenure :=
       [Min 1 "Loan tenure must be at least 1 year";
        Max 50 "Loan tenure cannot exceed 50 years"] |}.

Definition field_checks (s : LoanSchema) (f : Field) : list Check :=
  match f with
  | loanAmount => schema_loanAmount s
  | interestRate => schema_interestRate s
  | loanTenure => schema_loanTenure s
  end.

Definition field_value (d : LoanFormData) (f : Field) : number :=
  match f with
  | loanAmount => data_loanAmount d
  | interestRate => data_interestRate d
  | loanTenure => data_loanTenure d
  end.

(** The schema accepts the value [v] for the field [f]. *)
Definition accepts (s : LoanSchema) (f : Field) (v : number) : bool :=
  match parse_number (field_checks s f) v with
  | [] => true
  | _ => false
  end.

(** The issues of a whole form, each with the field it belongs to. *)
Definition schema_issues (s : LoanSchema) (d : LoanFormData)
    : list (Field * string) :=
  flat_map
    (fun f => map (pair f) (parse_number (field_checks s f) (field_value d f)))
    [loanAmount; interestRate; loanTenure].

Section Forms.

Variable pow_other : number -> number -> number.

(** The EMI form: the displayed result and the field errors. *)
Record EMIForm : Type := mkEMIForm {
  emi_result : option EMIResult.t;
  emi_errors : list (Field * string)
}.

(** part_001, [EMICalculator]: [onSubmit]. *)
Definition emi_onSubmit (d : LoanFormData) : EMIResult.t :=
  calculateEMI pow_other (data_loanAmount d) (data_interestRate d) (data_loanTenure d).

(** [form.handleSubmit(onSubmit)] of the EMI form. *)
Definition emi_handleSubmit (d : LoanFormData) (st : EMIForm) : EMIForm :=
  match schema_issues emiSchema d with
  | [] => {| emi_result := Some (emi_onSubmit d); emi_errors := [] |}
  | issues => {| emi_result := emi_result st; emi_errors := issues |}
  end.

(** The summary [onSubmit] of the amortization form builds. *)
Record AmortSummary : Type := mkAmortSummary {
  sum_emiResult : EMIResult.t;
  sum_totalMonths : number;
  sum_avgMonthlyPrincipal : number;
  sum_avgMonthlyInterest : number
}.

Record AmortForm : Type := mkAmortForm {
  amort_schedule : list AmortizationRow.t;
  amort_summary : option AmortSummary;
  amort_errors : list (Field * string)
}.

(** LoanAmortizationCalculator.tsx, [onSubmit]: the new schedule and summary,
    [None] when the schedule loop does not return. *)
Definition amort_onSubmit (d : LoanFormData)
    : option (list AmortizationRow.t * AmortSummary) :=
  let emiResult :=
    calculateEMI pow_other (data_loanAmount d) (data_interestRate d) (data_loanTenure d) in
  match
    generateAmortizationSchedule pow_other
      (data_loanAmount d) (data_interestRate d) (data_loanTenure d)
  with
  | None => None
  | Some fullSchedule =>
      Some (fullSchedule,
            {| sum_emiResult := emiResult;
               sum_totalMonths := (data_loanTenure d * Fin 12)%js;
               sum_avgMonthlyPrincipal :=
                 Math_round (data_loanAmount d / (data_loanTenure d * Fin 12))%js;
               sum_avgMonthlyInterest :=
                 Math_round (EMIResult.totalInterest emiResult /
                             (data_loanTenure d * Fin 12))%js |})
  end.

(** [form.handleSubmit(onSubmit)] of the amortization form. *)
Definition amort_handleSubmit (d : LoanFormData) (st : AmortForm) : option AmortForm :=
  match schema_issues amortizationSchema d with
  | [] =>
      match amort_onSubmit d with
      | None => None
      | Some (fullSchedule, summary) =>
          Some {| amort_schedule := fullSchedule;
                  amort_summary := Some summary;
                  amort_errors := [] |}
      end
  | issues =>
      Some {| amort_schedule := amort_schedule st;
              amort_summary := amort_summary st;
              amort_errors := issues |}
  end.

End Forms.

(** ** The formulas of the specification *)

(** The textbook fixed payment [P * r * (1+r)^n / ((1+r)^n - 1)] with
    [r = rate / 1200] and [n = 12 * tenure]. *)
Definition textbook_emi (P rate : Q) (tenure : Z) : Q :=
  let r := rate / 1200 in
  let n := (tenure * 12)%Z in
  P * r * (1 + r) ^ n / ((1 + r) ^ n - 1).

(** The balance of a fixed-payment loan at the start of month [k + 1]: what
    is left of [P] after [k] payments of [E], each paying the month's
    interest at rate [r] first. *)
Fixpoint balance_after (P r E : Q) (k : nat) : Q :=
  match k with
  | O => P
  | S k' =>
      let B := balance_after P r E k' in
      B - (E - B * r)
  end.

(** The slab table of the new regime: the upper limit of a slab, the tax due
    at its lower limit, the lower limit and the rate on the excess. *)
Definition new_regime_slabs : list (Q * Q * Q * Q) :=
  [ (300000, 0, 0, 0);
    (600000, 0, 300000, 5 # 100);
    (900000, 15000, 600000, 10 # 100);
    (1200000, 45000, 900000, 15 # 100);
    (1500000, 90000, 1200000, 20 # 100) ].

Fixpoint slab_tax (slabs : list (Q * Q * Q * Q)) (top : Q * Q * Q) (income : Q) : Q :=
  match slabs with
  | [] => let '(base, lower, rate) := top in base + rate * (income - lower)
  | (upper, base, lower, rate) :: rest =>
      if Qle_bool income upper then base + rate * (income - lower)
      else slab_tax rest top income
  end.

Definition new_regime_tax (income : Q) : Q :=
  slab_tax new_regime_slabs (150000, 1500000, 30 # 100) income.

(** The least of three rationals. *)
Definition Qmin3 (a b c : Q) : Q := Qmin (Qmin a b) c.

(** The HRA exemption rule: the least of the HRA received, 50% (metro) or
    40% of basic salary, and rent paid above 10% of basic salary, with basic
    salary half of the salary. *)
Definition hra_rule (salary hra rentPaid : Q) (metro : bool) : Q :=
  let basic := salary * (50 # 100) in
  Qmin3 hra
        (basic * (if metro then 50 # 100 else 40 # 100))
        (Qmax 0 (rentPaid - basic * (10 # 100))).

(** The annuity-due closed form [A * (1+r) * ((1+r)^n - 1) / r] at the fixed
    rate [r = 0.071]. *)
Definition ppf_closed_form (A : Q) (n : Z) : Q :=
  let r := 0.071 in
  A * (1 + r) * ((1 + r) ^ n - 1) / r.

(** ** Callers of the calculation functions *)

(** What a call of a form's [onSubmit] leaves behind: the result on display
    (the earlier one when [setResult] was not called) and the error raised
    with [form.setError], if any. *)
Record Submission (R : Type) : Type := mkSubmission {
  sub_result : option R;
  sub_error : option (string * string)
}.

Arguments mkSubmission {R} _ _.
Arguments sub_result {R} _.
Arguments sub_error {R} _.

(** The issues of one field of a zod object schema, and of an [.optional()]
    field, which may be left out. *)
Definition field_issues (name : string) (checks : list Check) (v : number)
    : list (string * string) :=
  map (pair name) (parse_number checks v).

Definition optional_issues (name : string) (checks : list Check)
    (o : option number) : list (string * string) :=
  match o with
  | None => []
  | Some v => field_issues name checks v
  end.

(** [x > y] on numbers. *)
Definition num_gt (x y : number) : bool := num_lt y x.

(** A number in a condition: [0] and [NaN] count as false. *)
Definition truthy (x : number) : bool :=
  match x with
  | NaN => false
  | Fin q => negb (Qeq_bool q 0)
  | _ => true
  end.

(** [x || 0] for a number that may be [undefined]. *)
Definition or_zero (o : option number) : number :=
  match o with
  | None => Fin 0
  | Some x => if truthy x then x else Fin 0
  end.

(** *** Income tax form (IncomeTaxCalculator.tsx) *)

Record IncomeTaxFormData : Type := mkIncomeTaxFormData {
  it_grossIncome : number;
  it_regime : Regime;
  it_deductions : option number
}.

Definition incomeTaxSchema_issues (d : IncomeTaxFormData)
    : list (string * string) :=
  (field_issues "grossIncome" [Min 0 "Gross income cannot be negative"]
     (it_grossIncome d) ++
   optional_issues "deductions" [Min 0 "Deductions cannot be negative"]
     (it_deductions d))%list.

(** The object [onSubmit] passes to [setResult]: the calculation spread out,
    with the inputs beside it. *)
Record IncomeTaxDisplay : Type := mkIncomeTaxDisplay {
  itd_calculation : TaxResult.t;
  itd_grossIncome : number;
  itd_deductions : number;
  itd_taxableIncome : number
}.

(** IncomeTaxCalculator.tsx, [onSubmit]. *)
Definition incomeTax_onSubmit (data : IncomeTaxFormData) : IncomeTaxDisplay :=
  let taxableIncome :=
    match it_regime data with
    | Old => Math_max (Fin 0) (it_grossIncome data - or_zero (it_deductions data))%js
    | New => it_grossIncome data
    end in
  let calculation := calculateIncomeTax taxableIncome (Some (it_regime data)) in
  {| itd_calculation := calculation;
     itd_grossIncome := it_grossIncome data;
     itd_deductions := or_zero (it_deductions data);
     itd_taxableIncome := taxableIncome |}.

(** *** HRA form (LoanAmortizationCalculator.tsx, second component) *)

Record HRAFormData : Type := mkHRAFormData {
  hra_salary : number;
  hra_hra : number;
  hra_rentPaid : number;
  hra_isMetroCity : bool
}.

Definition hraSchema_issues (d : HRAFormData) : list (string * string) :=
  (field_issues "salary" [Min 0 "Salary cannot be negative"] (hra_salary d) ++
   field_issues "hra" [Min 0 "HRA cannot be negative"] (hra_hra d) ++
   field_issues "rentPaid" [Min 0 "Rent paid cannot be negative"] (hra_rentPaid d))%list.

(** [HRACalculator], [onSubmit]. *)
Definition hra_onSubmit (data : HRAFormData) : HRAResult.t :=
  calculateHRAExemption (hra_salary data) (hra_hra data) (hra_rentPaid data)
    (hra_isMetroCity data).

(** *** Break-even form (BreakEvenCalculator.tsx) *)

Record BreakEvenFormData : Type := mkBreakEvenFormData {
  be_fixedCosts : number;
  be_variableCostPerUnit : number;
  be_pricePerUnit : number;
  be_targetProfit : option number
}.

Definition breakEvenSchema_issues (d : BreakEvenFormData)
    : list (string * string) :=
  (field_issues "fixedCosts" [Min 0 "Fixed costs cannot be negative"]
     (be_fixedCosts d) ++
   field_issues "variableCostPerUnit"
     [Min 0 "Variable cost per unit cannot be negative"]
     (be_variableCostPerUnit d) ++
   field_issues "pricePerUnit" [Min 0.01 "Price per unit must be greater than 0"]
     (be_pricePerUnit d) ++
   optional_issues "targetProfit" [Min 0 "Target profit cannot be negative"]
     (be_targetProfit d))%list.

Record ExtendedBreakEven : Type := mkExtendedBreakEven {
  ebe_basic : BreakEvenResult.t;
  ebe_targetProfit : number;
  ebe_unitsForTargetProfit : number;
  ebe_revenueForTargetProfit : number;
  ebe_marginOfSafety : number;
  ebe_marginOfSafetyPercentage : number;
  ebe_variableCostTotal : number;
  ebe_totalCostAtBreakEven : number
}.

(** BreakEvenCalculator.tsx, [calculateExtendedBreakEven]. *)
Definition calculateExtendedBreakEven (data : BreakEvenFormData)
    : ExtendedBreakEven :=
  let basicBreakEven :=
    calculateBreakEven (be_fixedCosts data) (be_variableCostPerUnit data)
      (be_pricePerUnit data) in
  let target :=
    match be_targetProfit data with
    | Some tp =>
        if truthy tp && num_gt tp (Fin 0) then
          let contributionMargin :=
            (be_pricePerUnit data - be_variableCostPerUnit data)%js in
          let unitsForTargetProfit :=
            Math_ceil ((be_fixedCosts data + tp) / contributionMargin)%js in
          (unitsForTargetProfit, (unitsForTargetProfit * be_pricePerUnit data)%js)
        else (Fin 0, Fin 0)
    | None => (Fin 0, Fin 0)
    end in
  let currentUnits := (BreakEvenResult.breakEvenUnits basicBreakEven * Fin 1.2)%js in
  let marginOfSafety :=
    Math_max (Fin 0)
      (currentUnits - BreakEvenResult.breakEvenUnits basicBreakEven)%js in
  let marginOfSafetyPercentage :=
    if num_gt currentUnits (Fin 0)
    then ((marginOfSafety / currentUnits) * Fin 100)%js
    else Fin 0 in
  {| ebe_basic := basicBreakEven;
     ebe_targetProfit := or_zero (be_targetProfit data);
     ebe_unitsForTargetProfit := fst target;
     ebe_revenueForTargetProfit := snd target;
     ebe_marginOfSafety := Math_round marginOfSafety;
     ebe_marginOfSafetyPercentage :=
       (Math_round (marginOfSafetyPercentage * Fin 100) / Fin 100)%js;
     ebe_variableCostTotal :=
       Math_round (BreakEvenResult.breakEvenUnits basicBreakEven *
                   be_variableCostPerUnit data)%js;
     ebe_totalCostAtBreakEven :=
       Math_round (be_fixedCosts data +
                   BreakEvenResult.breakEvenUnits basicBreakEven *
                   be_variableCostPerUnit data)%js |}.

(** BreakEvenCalculator.tsx, [onSubmit]. *)
Definition breakEven_onSubmit (data : BreakEvenFormData)
    (shown : option ExtendedBreakEven) : Submission ExtendedBreakEven :=
  if (be_pricePerUnit data <= be_variableCostPerUnit data)%js then
    {| sub_result := shown;
       sub_error :=
         Some ("pricePerUnit",
               "Price per unit must be greater than variable cost per unit") |}
  else
    {| sub_result := Some (calculateExtendedBreakEven data);
       sub_error := None |}.

Section Callers.

Variable pow_other : number -> number -> number.

(** *** Retirement form (RetirementCalculator.tsx) *)

Record RetirementFormData : Type := mkRetirementFormData {
  ret_currentAge : number;
  ret_retirementAge : number;
  ret_monthlyExpenses : number;
  ret_inflationRate : number;
  ret_expectedReturn : number
}.

Definition retirementSchema_issues (d : RetirementFormData)
    : list (string * string) :=
  (field_issues "currentAge"
     [Min 18 "Age must be at least 18"; Max 65 "Age must be less than 65"]
     (ret_currentAge d) ++
   field_issues "retirementAge"
     [Min 50 "Retirement age must be at least 50";
      Max 75 "Retirement age cannot exceed 75"]
     (ret_retirementAge d) ++
   field_issues "monthlyExpenses"
     [Min 10000 "Monthly expenses must be at least ₹10,000"]
     (ret_monthlyExpenses d) ++
   field_issues "inflationRate"
     [Min 2 "Inflation rate must be at least 2%";
      Max 15 "Inflation rate cannot exceed 15%"]
     (ret_inflationRate d) ++
   field_issues "expectedReturn"
     [Min 5 "Expected return must be at least 5%";
      Max 25 "Expected return cannot exceed 25%"]
     (ret_expectedReturn d))%list.

(** RetirementCalculator.tsx, [onSubmit]. *)
Definition retirement_onSubmit (data : RetirementFormData)
    (shown : option RetirementResult.t) : Submission RetirementResult.t :=
  if (ret_retirementAge data <= ret_currentAge data)%js then
    {| sub_result := shown;
       sub_error :=
         Some ("retirementAge",
               "Retirement age must be greater than current age") |}
  else
    {| sub_result :=
         Some (calculateRetirementCorpus pow_other
                 (ret_currentAge data) (ret_retirementAge data)
                 (ret_monthlyExpenses data) (ret_inflationRate data)
                 (ret_expectedReturn data));
       sub_error := None |}.

(** *** Car loan form (CarLoanCalculator.tsx) *)

Inductive CarType : Type := NewCar | UsedCar.

Record CarLoanFormData : Type := mkCarLoanFormData {
  car_carPrice : number;
  car_downPayment : number;
  car_tradeInValue : number;
  car_interestRate : number;
  car_loanTenure : number;
  car_processingFee : number;
  car_insurance : number;
  car_extendedWarranty : number;
  car_carType : CarType
}.

Definition carLoanSchema_issues (d : CarLoanFormData) : list (string * string) :=
  (field_issues "carPrice" [Min 100000 "Car price must be at least ₹1,00,000"]
     (car_carPrice d) ++
   field_issues "downPayment" [Min 0 "Down payment cannot be negative"]
     (car_downPayment d) ++
   field_issues "tradeInValue" [Min 0 "Trade-in value cannot be negative"]
     (car_tradeInValue d) ++
   field_issues "interestRate"
     [Min 0.1 "Interest rate must be at least 0.1%";
      Max 30 "Interest rate cannot exceed 30%"]
     (car_interestRate d) ++
   field_issues "loanTenure"
     [Min 1 "Loan tenure must be at least 1 year";
      Max 7 "Car loan tenure cannot exceed 7 years"]
     (car_loanTenure d) ++
   field_issues "processingFee" [Min 0 "Processing fee cannot be negative"]
     (car_processingFee d) ++
   field_issues "insurance" [Min 0 "Insurance amount cannot be negative"]
     (car_insurance d) ++
   field_issues "extendedWarranty"
     [Min 0 "Extended warranty cost cannot be negative"]
     (car_extendedWarranty d))%list.

Record CarLoanResult : Type := mkCarLoanResult {
  clr_loanAmount : number;
  clr_emi : number;
  clr_totalInterest : number;
  clr_totalAmountPayable : number;
  clr_netFinancedAmount : number;
  clr_upfrontCosts : number;
  clr_totalCostOfOwnership : number;
  clr_estimatedValueAfterLoan : number;
  clr_totalDepreciation : number;
  clr_loanToValueRatio : number;
  clr_effectiveInterestRate : number
}.

(** CarLoanCalculator.tsx, [calculateCarLoan]. *)
Definition calculateCarLoan (data : CarLoanFormData) : CarLoanResult :=
  let carPrice := car_carPrice data in
  let downPayment := car_downPayment data in
  let tradeInValue := car_tradeInValue data in
  let interestRate := car_interestRate data in
  let loanTenure := car_loanTenure data in
  let processingFee := car_processingFee data in
  let insurance := car_insurance data in
  let extendedWarranty := car_extendedWarranty data in
  let carType := car_carType data in
  let netFinancedAmount :=
    (carPrice - downPayment - tradeInValue + insurance + extendedWarranty)%js in
  let loanAmount := Math_max (Fin 0) (netFinancedAmount + processingFee)%js in
  let emiResult :=
    if num_gt loanAmount (Fin 0)
    then calculateEMI pow_other loanAmount interestRate loanTenure
    else {| EMIResult.emi := Fin 0;
            EMIResult.totalAmount := Fin 0;
            EMIResult.totalInterest := Fin 0 |} in
  let totalCostOfOwnership :=
    (carPrice + processingFee + insurance + extendedWarranty +
     EMIResult.totalInterest emiResult)%js in
  let upfrontCosts :=
    (downPayment + processingFee + insurance +
     match carType with NewCar => extendedWarranty | UsedCar => Fin 0 end)%js in
  let depreciationRate :=
    match carType with NewCar => Fin 0.15 | UsedCar => Fin 0.10 end in
  let estimatedValueAfterLoan :=
    (carPrice * Math_pow pow_other (Fin 1 - depreciationRate) loanTenure)%js in
  {| clr_loanAmount := Math_round loanAmount;
     clr_emi := Math_round (EMIResult.emi emiResult);
     clr_totalInterest := Math_round (EMIResult.totalInterest emiResult);
     clr_totalAmountPayable := Math_round (EMIResult.totalAmount emiResult);
     clr_netFinancedAmount := Math_round netFinancedAmount;
     clr_upfrontCosts := Math_round upfrontCosts;
     clr_totalCostOfOwnership := Math_round totalCostOfOwnership;
     clr_estimatedValueAfterLoan := Math_round estimatedValueAfterLoan;
     clr_totalDepreciation := Math_round (carPrice - estimatedValueAfterLoan)%js;
     clr_loanToValueRatio :=
       if num_gt carPrice (Fin 0)
       then Math_round ((loanAmount / carPrice) * Fin 100)%js
       else Fin 0;
     clr_effectiveInterestRate :=
       if num_gt loanAmount (Fin 0)
       then (Math_round
               (((EMIResult.totalInterest emiResult / loanAmount) / loanTenure)
                * Fin 10000) / Fin 100)%js
       else Fin 0 |}.

(** CarLoanCalculator.tsx, [onSubmit]. *)
Definition carLoan_onSubmit (data : CarLoanFormData)
    (shown : option CarLoanResult) : Submission CarLoanResult :=
  if (car_downPayment data + car_tradeInValue data >= car_carPrice data)%js then
    {| sub_result := shown;
       sub_error :=
         Some ("downPayment",
               "Down payment + trade-in value cannot exceed car price") |}
  else
    {| sub_result := Some (calculateCarLoan data); sub_error := None |}.

End Callers.

(** *** The displayed schedule (LoanAmortizationCalculator.tsx) *)

Inductive ViewMode : Type := Yearly | Monthly.

Record YearSummary : Type := mkYearSummary {
  ys_period : string;
  ys_totalEMI : number;
  ys_totalPrincipal : number;
  ys_totalInterest : number;
  ys_endingBalance : number
}.

(** [array.length] as a number. *)
Definition array_length {A : Type} (l : list A) : number :=
  Fin (inject_Z (Z.of_nat (List.length l))).

(** The integer part of a rational, towards zero. *)
Definition Qtrunc (q : Q) : Z := if Qle_bool 0 q then Qfloor q else Qceiling q.

(** The position [Array.prototype.slice] takes for an argument: [NaN] is 0,
    a negative argument counts from the end, and the position is kept within
    the array. *)
Definition slice_index (len : nat) (x : number) : nat :=
  match x with
  | NaN | NInf => 0%nat
  | PInf => len
  | Fin q =>
      let z := Qtrunc q in
      if (z <? 0)%Z then Z.to_nat (Z.max (Z.of_nat len + z) 0)
      else Nat.min (Z.to_nat z) len
  end.

(** [array.slice(start, stop)]. *)
Definition slice {A : Type} (l : list A) (start stop : number) : list A :=
  let k := slice_index (List.length l) start in
  let final := slice_index (List.length l) stop in
  firstn (final - k) (skipn k l).

Section Display.

(** The text JavaScript gives for a finite number that is not an integer. *)
Variable show_fraction : Q -> string.

(** A number inside a template literal. *)
Definition number_to_string (x : number) : string :=
  match x with
  | NaN => "NaN"
  | PInf => "Infinity"
  | NInf => "-Infinity"
  | Fin q =>
      if is_integer q then NilZero.string_of_int (Z.to_int (Qfloor q))
      else show_fraction q
  end.

(** The body of the loop over the years in [getDisplaySchedule]. *)
Definition yearly_step (schedule : list AmortizationRow.t) (year : number)
    (yearlySchedule : list YearSummary) : list YearSummary :=
  let startMonth := ((year - Fin 1) * Fin 12 + Fin 1)%js in
  let endMonth := Math_min2 (year * Fin 12)%js (array_length schedule) in
  if (startMonth <= array_length schedule)%js then
    let yearData := slice schedule (startMonth - Fin 1)%js endMonth in
    let yearSummary :=
      {| ys_period := "Year " ++ number_to_string year;
         ys_totalEMI :=
           fold_left (fun sum month => (sum + AmortizationRow.emi month)%js)
             yearData (Fin 0);
         ys_totalPrincipal :=
           fold_left
             (fun sum month => (sum + AmortizationRow.principalPayment month)%js)
             yearData (Fin 0);
         ys_totalInterest :=
           fold_left
             (fun sum month => (sum + AmortizationRow.interestPayment month)%js)
             yearData (Fin 0);
         ys_endingBalance :=
           or_zero
             (option_map AmortizationRow.remainingBalance
                (nth_error yearData (List.length yearData - 1))) |} in
    (yearlySchedule ++ [yearSummary])%list
  else yearlySchedule.

(** LoanAmortizationCalculator.tsx, [getDisplaySchedule], from the view mode,
    the tenure the form holds and the schedule on display: the yearly
    summaries or the first rows of the schedule.  [None] is the loop that
    does not return. *)
Definition getDisplaySchedule (viewMode : ViewMode) (loanTenure : number)
    (schedule : list AmortizationRow.t)
    : option (list YearSummary + list AmortizationRow.t) :=
  match viewMode with
  | Yearly =>
      option_map inl
        (for_loop (loop_fuel loanTenure) (Fin 1) loanTenure
           (yearly_step schedule) [])
  | Monthly => Some (inr (slice schedule (Fin 0) (Fin 60)))
  end.

End Display.

(** ** Definitions used to state the properties *)

(** The loop body applied for the counter values [k], [k + 1], ...,
    [k + n - 1] in turn. *)
Fixpoint iter_from {S : Type} (body : number -> S -> S) (k : Z) (n : nat)
    (s : S) : S :=
  match n with
  | O => s
  | Datatypes.S n' => iter_from body (k + 1) n' (body (Fin (inject_Z k)) s)
  end.

(** The monthly rate of an annual percentage rate. *)
Definition monthly_rate (rate : Q) : Q := rate / 1200.

(** The row of month [i + 1] of a fixed-payment loan, from the balances
    before and after the payment; every amount rounded. *)
Definition amortization_row (P r E : Q) (i : nat) : AmortizationRow.t :=
  let B := balance_after P r E i in
  let B' := balance_after P r E (S i) in
  {| AmortizationRow.month := Fin (inject_Z (Z.of_nat i + 1));
     AmortizationRow.emi := Fin (inject_Z (round_half_up E));
     AmortizationRow.principalPayment := Fin (inject_Z (round_half_up (E - B * r)));
     AmortizationRow.interestPayment := Fin (inject_Z (round_half_up (B * r)));
     AmortizationRow.remainingBalance := Fin (inject_Z (round_half_up B'));
     AmortizationRow.cumulativePrincipal := Fin (inject_Z (round_half_up (P - B')));
     AmortizationRow.cumulativeInterest :=
       Fin (inject_Z (round_half_up (inject_Z (Z.of_nat (S i)) * E - (P - B')))) |}.

(** The variables of the schedule loop after [k] turns on a loan of [P] at
    the monthly rate [r] with the payment [E]: the balance left, what was
    repaid, the interest paid, and the rows of the months 1 to [k]. *)
Definition amort_state_at (P r E : Q) (k : nat) (st : AmortState) : Prop :=
  st_remainingBalance st =n= Fin (balance_after P r E k)
  /\ st_cumulativePrincipal st =n= Fin (P - balance_after P r E k)
  /\ st_cumulativeInterest st =n=
     Fin (inject_Z (Z.of_nat k) * E - (P - balance_after P r E k))
  /\ st_schedule st = map (amortization_row P r E) (seq 0 k).

(** The rows of the year [y] of a schedule: months [12 (y - 1) + 1] to
    [12 y], as far as the schedule goes. *)
Definition year_rows (schedule : list AmortizationRow.t) (y : nat)
    : list AmortizationRow.t :=
  firstn 12 (skipn (12 * (y - 1)) schedule).

(** The sum of a column over some rows, added up in order from 0. *)
Definition column_sum (f : AmortizationRow.t -> number)
    (rows : list AmortizationRow.t) : number :=
  fold_left (fun sum month => (sum + f month)%js) rows (Fin 0).

(** The summary of the year [y] from its rows. *)
Definition year_summary (y : nat) (rows : list AmortizationRow.t)
    : YearSummary :=
  {| ys_period := "Year " ++ NilZero.string_of_int (Z.to_int (Z.of_nat y));
     ys_totalEMI := column_sum AmortizationRow.emi rows;
     ys_totalPrincipal := column_sum AmortizationRow.principalPayment rows;
     ys_totalInterest := column_sum AmortizationRow.interestPayment rows;
     ys_endingBalance :=
       match last (map Some rows) None with
       | Some row =>
           if truthy (AmortizationRow.remainingBalance row)
           then AmortizationRow.remainingBalance row
           else Fin 0
       | None => Fin 0
       end |}.

(** The number of years a schedule of [len] rows reaches into. *)
Definition years_covered (len : nat) : nat := ((len + 11) / 12)%nat.

(** Structural equality of results: field by field, [NaN] equal to [NaN]. *)
Definition fields_eq (l1 l2 : list number) : Prop := Forall2 num_eq l1 l2.

Definition EMIResult_fields (r : EMIResult.t) : list number :=
  [EMIResult.emi r; EMIResult.totalAmount r; EMIResult.totalInterest r].

Definition SIPResult_fields (r : SIPResult.t) : list number :=
  [SIPResult.futureValue r; SIPResult.totalInvestment r; SIPResult.totalReturns r].

Definition CompoundResult_fields (r : CompoundResult.t) : list number :=
  [CompoundResult.amount r; CompoundResult.interest r; CompoundResult.principal r].

Definition PPFResult_fields (r : PPFResult.t) : list number :=
  [PPFResult.maturityAmount r; PPFResult.totalInvestment r; PPFResult.interest r].

Definition RetirementResult_fields (r : RetirementResult.t) : list number :=
  [RetirementResult.requiredCorpus r; RetirementResult.monthlySIP r;
   RetirementResult.futureMonthlyExpenses r; RetirementResult.currentValue r].

Definition FIREResult_fields (r : FIREResult.t) : list number :=
  [FIREResult.fireNumber r; FIREResult.yearsToFire r; FIREResult.fireAge r;
   FIREResult.shortfall r].

Definition TaxResult_fields (r : TaxResult.t) : list number :=
  [TaxResult.tax r; TaxResult.cess r; TaxResult.totalTax r; TaxResult.netIncome r].

Definition HRAResult_fields (r : HRAResult.t) : list number :=
  [HRAResult.hraExemption r; HRAResult.taxableHRA r; HRAResult.actualRent r;
   HRAResult.basicSalary r].

Definition EmergencyResult_fields (r : EmergencyResult.t) : list number :=
  [EmergencyResult.recommendedAmount r; EmergencyResult.months r;
   EmergencyResult.monthlyExpenses r].

Definition BreakEvenResult_fields (r : BreakEvenResult.t) : list number :=
  [BreakEvenResult.breakEvenUnits r; BreakEvenResult.breakEvenRevenue r;
   BreakEvenResult.contributionMargin r;
   BreakEvenResult.contributionMarginPercent r].

(** Equal optional arguments: both left out, or both given and equal. *)
Definition opt_num_eq (a b : option number) : Prop :=
  match a, b with
  | None, None => True
  | Some x, Some y => x =n= y
  | _, _ => False
  end.

(** Equal optional results. *)
Definition opt_fields_eq {A : Type} (fields : A -> list number)
    (a b : option A) : Prop :=
  match a, b with
  | None, None => True
  | Some x, Some y => fields_eq (fields x) (fields y)
  | _, _ => False
  end.

(** A function of numbers that gives equal results on equal arguments. *)
Definition respects1 (f : number -> number) : Prop :=
  forall x x', x =n= x' -> f x =n= f x'.

Definition respects2 (f : number -> number -> number) : Prop :=
  forall x x' y y', x =n= x' -> y =n= y' -> f x y =n= f x' y'.

(** * Properties *)

(** ** Numbers: equality of values *)

Close Scope string_scope.

Lemma num_eq_refl (x : number) : x =n= x.
Proof. destruct x; simpl; auto. reflexivity. Qed.

Lemma num_eq_sym (x y : number) : x =n= y -> y =n= x.
Proof. destruct x, y; simpl; auto. intros H; symmetry; exact H. Qed.

Lemma num_eq_trans (x y z : number) : x =n= y -> y =n= z -> x =n= z.
Proof.
  destruct x, y, z; simpl; try tauto.
  intros H1 H2. rewrite H1. exact H2.
Qed.

#[global] Instance num_eq_equiv : Equivalence num_eq.
Proof.
  split.
  - exact num_eq_refl.
  - exact num_eq_sym.
  - exact num_eq_trans.
Qed.

Lemma Qeq_bool_comp_l (a b c : Q) : a == b -> Qeq_bool a c = Qeq_bool b c.
Proof. intros H. rewrite H. reflexivity. Qed.

Lemma Qle_bool_comp (a b c d : Q) :
  a == b -> c == d -> Qle_bool a c = Qle_bool b d.
Proof. intros H1 H2. rewrite H1, H2. reflexivity. Qed.

Lemma Qcompare_comp_l (a b c : Q) : a == b -> (a ?= c) = (b ?= c).
Proof. intros H. rewrite H. reflexivity. Qed.

(** Splits on the constructors of every number in the context. *)
Ltac num_cases :=
  repeat match goal with
         | x : number |- _ => destruct x
         end;
  cbn [num_eq num_neg num_add num_sub num_mul num_div num_le num_ge num_lt
       num_seq Math_max Math_min2 Math_round Math_ceil num_sign inf_of_sign
       mul_sign negb] in *;
  try contradiction; try exact I; try reflexivity.

#[global] Instance num_neg_proper : Proper (num_eq ==> num_eq) num_neg.
Proof. intros x x' Hx. num_cases. rewrite Hx. reflexivity. Qed.

#[global] Instance num_add_proper :
  Proper (num_eq ==> num_eq ==> num_eq) num_add.
Proof.
  intros x x' Hx y y' Hy. num_cases.
  rewrite !Qred_correct, Hx, Hy. reflexivity.
Qed.

#[global] Instance num_sub_proper :
  Proper (num_eq ==> num_eq ==> num_eq) num_sub.
Proof.
  intros x x' Hx y y' Hy. unfold num_sub. rewrite Hx, Hy. reflexivity.
Qed.

#[global] Instance num_mul_proper :
  Proper (num_eq ==> num_eq ==> num_eq) num_mul.
Proof.
  intros x x' Hx y y' Hy. num_cases;
    try (rewrite (Qcompare_comp_l _ _ 0 Hx); reflexivity);
    try (rewrite (Qcompare_comp_l _ _ 0 Hy); reflexivity).
  rewrite !Qred_correct, Hx, Hy. reflexivity.
Qed.

#[global] Instance num_div_proper :
  Proper (num_eq ==> num_eq ==> num_eq) num_div.
Proof.
  intros x x' Hx y y' Hy. num_cases;
    try (rewrite (Qle_bool_comp 0 0 _ _ (Qeq_refl 0) Hy); reflexivity).
  rewrite (Qeq_bool_comp_l _ _ 0 Hy), (Qcompare_comp_l _ _ 0 Hx).
  match goal with
  | |- context [Qeq_bool ?b 0] => destruct (Qeq_bool b 0)
  end; [reflexivity|].
  cbn [num_eq]. rewrite !Qred_correct, Hx, Hy. reflexivity.
Qed.

#[global] Instance num_le_proper : Proper (num_eq ==> num_eq ==> eq) num_le.
Proof. intros x x' Hx y y' Hy. num_cases. apply Qle_bool_comp; assumption. Qed.

#[global] Instance num_ge_proper : Proper (num_eq ==> num_eq ==> eq) num_ge.
Proof. intros x x' Hx y y' Hy. unfold num_ge. rewrite Hx, Hy. reflexivity. Qed.

#[global] Instance num_lt_proper : Proper (num_eq ==> num_eq ==> eq) num_lt.
Proof.
  intros x x' Hx y y' Hy. num_cases.
  f_equal. apply Qle_bool_comp; assumption.
Qed.

#[global] Instance num_seq_proper : Proper (num_eq ==> num_eq ==> eq) num_seq.
Proof.
  intros x x' Hx y y' Hy. num_cases. rewrite Hx, Hy. reflexivity.
Qed.

#[global] Instance Math_max_proper :
  Proper (num_eq ==> num_eq ==> num_eq) Math_max.
Proof.
  intros x x' Hx y y' Hy. num_cases; try assumption.
  rewrite (Qle_bool_comp _ _ _ _ Hx Hy). destruct (Qle_bool _ _); assumption.
Qed.

#[global] Instance Math_min2_proper :
  Proper (num_eq ==> num_eq ==> num_eq) Math_min2.
Proof.
  intros x x' Hx y y' Hy. num_cases; try assumption.
  rewrite (Qle_bool_comp _ _ _ _ Hx Hy). destruct (Qle_bool _ _); assumption.
Qed.

#[global] Instance Math_min_proper :
  Proper (num_eq ==> num_eq ==> num_eq ==> num_eq) Math_min.
Proof.
  intros x x' Hx y y' Hy z z' Hz. unfold Math_min. rewrite Hx, Hy, Hz.
  reflexivity.
Qed.

#[global] Instance round_half_up_proper : Proper (Qeq ==> eq) round_half_up.
Proof. intros a b H. unfold round_half_up. rewrite H. reflexivity. Qed.

#[global] Instance Math_round_proper : Proper (num_eq ==> eq) Math_round.
Proof. intros x x' Hx. num_cases. rewrite Hx. reflexivity. Qed.

#[global] Instance Math_ceil_proper : Proper (num_eq ==> eq) Math_ceil.
Proof. intros x x' Hx. num_cases. rewrite Hx. reflexivity. Qed.

#[global] Instance Fin_proper : Proper (Qeq ==> num_eq) Fin.
Proof. intros a b H. exact H. Qed.

#[global] Instance is_integer_proper : Proper (Qeq ==> eq) is_integer.
Proof.
  intros a b H. unfold is_integer.
  rewrite (Qfloor_comp _ _ H). apply Qeq_bool_comp_l. exact H.
Qed.

(** ** Numbers: finite values *)

Lemma fin_add (x y : number) (a b : Q) :
  x =n= Fin a -> y =n= Fin b -> (x + y)%js =n= Fin (a + b).
Proof.
  intros Hx Hy. rewrite Hx, Hy. cbn [num_add num_eq].
  apply Qred_correct.
Qed.

Lemma fin_sub (x y : number) (a b : Q) :
  x =n= Fin a -> y =n= Fin b -> (x - y)%js =n= Fin (a - b).
Proof.
  intros Hx Hy. rewrite Hx, Hy. cbn [num_sub num_neg num_add num_eq].
  apply Qred_correct.
Qed.

Lemma fin_mul (x y : number) (a b : Q) :
  x =n= Fin a -> y =n= Fin b -> (x * y)%js =n= Fin (a * b).
Proof.
  intros Hx Hy. rewrite Hx, Hy. cbn [num_mul num_eq].
  apply Qred_correct.
Qed.

Lemma Qeq_bool_false (b c : Q) : ~ b == c -> Qeq_bool b c = false.
Proof.
  intros H. destruct (Qeq_bool b c) eqn:E; [|reflexivity].
  apply Qeq_bool_eq in E. contradiction.
Qed.

Lemma fin_div (x y : number) (a b : Q) :
  x =n= Fin a -> y =n= Fin b -> ~ b == 0 -> (x / y)%js =n= Fin (a / b).
Proof.
  intros Hx Hy Hb. rewrite Hx, Hy. cbn [num_div].
  rewrite (Qeq_bool_false _ _ Hb). cbn [num_eq]. apply Qred_correct.
Qed.

Lemma fin_le (x y : number) (a b : Q) :
  x =n= Fin a -> y =n= Fin b -> num_le x y = Qle_bool a b.
Proof. intros Hx Hy. rewrite Hx, Hy. reflexivity. Qed.

Lemma fin_seq (x y : number) (a b : Q) :
  x =n= Fin a -> y =n= Fin b -> num_seq x y = Qeq_bool a b.
Proof. intros Hx Hy. rewrite Hx, Hy. reflexivity. Qed.

Lemma fin_round (x : number) (a : Q) :
  x =n= Fin a -> Math_round x = Fin (inject_Z (round_half_up a)).
Proof. intros Hx. rewrite Hx. reflexivity. Qed.

Lemma Qle_bool_false (a b : Q) : Qle_bool a b = false <-> b < a.
Proof.
  split; intros H.
  - apply Qnot_le_lt. intros Hle. apply Qle_bool_iff in Hle. congruence.
  - destruct (Qle_bool a b) eqn:E; [|reflexivity].
    apply Qle_bool_iff in E. exfalso. apply (Qlt_not_le _ _ H E).
Qed.

Lemma fin_max (x y : number) (a b : Q) :
  x =n= Fin a -> y =n= Fin b -> Math_max x y =n= Fin (Qmax a b).
Proof.
  intros Hx Hy. rewrite Hx, Hy. cbn [Math_max num_le].
  destruct (Qle_bool a b) eqn:E; cbn [num_eq].
  - apply Qle_bool_iff in E. symmetry. apply Q.max_r. exact E.
  - apply Qle_bool_false in E. symmetry. apply Q.max_l.
    apply Qlt_le_weak. exact E.
Qed.

Lemma fin_min2 (x y : number) (a b : Q) :
  x =n= Fin a -> y =n= Fin b -> Math_min2 x y =n= Fin (Qmin a b).
Proof.
  intros Hx Hy. rewrite Hx, Hy. cbn [Math_min2 num_le].
  destruct (Qle_bool a b) eqn:E; cbn [num_eq].
  - apply Qle_bool_iff in E. symmetry. apply Q.min_l. exact E.
  - apply Qle_bool_false in E. symmetry. apply Q.min_r.
    apply Qlt_le_weak. exact E.
Qed.

Lemma fin_min (x y z : number) (a b c : Q) :
  x =n= Fin a -> y =n= Fin b -> z =n= Fin c ->
  Math_min x y z =n= Fin (Qmin3 a b c).
Proof.
  intros Hx Hy Hz. unfold Math_min, Qmin3.
  apply fin_min2; [apply fin_min2|]; assumption.
Qed.

Lemma is_integer_inject_Z (n : Z) : is_integer (inject_Z n) = true.
Proof. unfold is_integer. rewrite Qfloor_Z. apply Qeq_bool_refl. Qed.

Lemma fin_pow (pow_other : number -> number -> number) (x y : number)
    (b : Q) (n : Z) :
  x =n= Fin b -> y =n= Fin (inject_Z n) -> (0 <= n)%Z ->
  Math_pow pow_other x y =n= Fin (b ^ n).
Proof.
  intros Hx Hy Hn. destruct x; try contradiction. destruct y; try contradiction.
  cbn [num_eq] in Hx, Hy. unfold Math_pow.
  rewrite (is_integer_proper _ _ Hy), is_integer_inject_Z.
  rewrite (Qfloor_comp _ _ Hy), Qfloor_Z.
  destruct (0 <=? n)%Z eqn:E; [|apply Z.leb_gt in E; lia].
  cbn [num_eq]. rewrite Qred_correct, Hx. reflexivity.
Qed.

(** Evaluates an arithmetic expression on finite numbers, leaving the side
    conditions (non-zero divisors, natural exponents). *)
Ltac fin_step :=
  match goal with
  | H : ?x =n= Fin _ |- ?x =n= _ => exact H
  | |- Fin _ =n= _ => apply num_eq_refl
  | |- (_ + _)%js =n= _ => eapply fin_add
  | |- (_ - _)%js =n= _ => eapply fin_sub
  | |- (_ * _)%js =n= _ => eapply fin_mul
  | |- (_ / _)%js =n= _ => eapply fin_div
  | |- Math_pow _ _ _ =n= _ => eapply fin_pow
  | |- Math_max _ _ =n= _ => eapply fin_max
  | |- Math_min _ _ _ =n= _ => eapply fin_min
  end.

Ltac fin_eval := repeat fin_step.

(** The value of [x] is [q], by evaluation and then an equation on rationals. *)
Ltac fin_value :=
  eapply num_eq_trans; [fin_eval | cbn [num_eq]].

Lemma Qred_inject_Z (z : Z) : Qred (inject_Z z) = inject_Z z.
Proof.
  unfold Qred, inject_Z.
  pose proof (Z.ggcd_gcd z 1) as Hg.
  pose proof (Z.ggcd_correct_divisors z 1) as Hd.
  destruct (Z.ggcd z 1) as [g [aa bb]]. cbn [fst snd] in *.
  rewrite Z.gcd_1_r in Hg. subst g. destruct Hd as [Ha Hb].
  rewrite Z.mul_1_l in Ha, Hb. subst aa bb. reflexivity.
Qed.

Lemma num_succ_inject_Z (k : Z) :
  (Fin (inject_Z k) + Fin 1)%js = Fin (inject_Z (k + 1)).
Proof.
  cbn [num_add]. f_equal.
  rewrite <- (Qred_inject_Z (k + 1)). apply Qred_complete.
  rewrite inject_Z_plus. reflexivity.
Qed.

(** ** Counting loops return *)

Lemma for_loop_iter {S : Type} (body : number -> S -> S) (q : Q) :
  forall (n : nat) (k : Z) (fuel : nat) (s : S),
    n = Z.to_nat (Qfloor q - k + 1) -> (n < fuel)%nat ->
    for_loop fuel (Fin (inject_Z k)) (Fin q) body s =
    Some (iter_from body k n s).
Proof.
  induction n as [|n IH]; intros k fuel s Hn Hfuel.
  - destruct fuel as [|fuel]; [lia|]. cbn [for_loop iter_from num_le].
    assert (Hlt : q < inject_Z k).
    { apply Qlt_le_trans with (inject_Z (Qfloor q + 1)).
      - apply Qlt_floor.
      - rewrite <- Zle_Qle. lia. }
    apply Qle_bool_false in Hlt. rewrite Hlt. reflexivity.
  - destruct fuel as [|fuel]; [lia|]. cbn [for_loop iter_from num_le].
    assert (Hle : inject_Z k <= q).
    { apply Qle_trans with (inject_Z (Qfloor q)).
      - rewrite <- Zle_Qle. lia.
      - apply Qfloor_le. }
    apply Qle_bool_iff in Hle. rewrite Hle.
    rewrite num_succ_inject_Z. apply IH; lia.
Qed.

Lemma for_loop_returns {S : Type} (body : number -> S -> S) (q : Q) (s : S) :
  for_loop (loop_fuel (Fin q)) (Fin 1) (Fin q) body s =
  Some (iter_from body 1 (Z.to_nat (Qfloor q)) s).
Proof.
  change (Fin 1) with (Fin (inject_Z 1)).
  apply for_loop_iter.
  - f_equal. lia.
  - cbn [loop_fuel]. lia.
Qed.

(** ** The fixed payment *)

Lemma monthly_rate_value (x : number) (rate : Q) :
  x =n= Fin rate -> (x / (Fin 12 * Fin 100))%js =n= Fin (monthly_rate rate).
Proof.
  intros Hx. fin_value.
  - discriminate.
  - reflexivity.
Qed.

Lemma months_value (x : number) (t : Q) :
  x =n= Fin t -> (x * Fin 12)%js =n= Fin (t * 12).
Proof. intros Hx. fin_eval. Qed.

Lemma months_value_Z (x : number) (t : Z) :
  x =n= Fin (inject_Z t) -> (x * Fin 12)%js =n= Fin (inject_Z (t * 12)).
Proof.
  intros Hx. fin_value. rewrite inject_Z_mult. reflexivity.
Qed.

Lemma emi_formula_fin (pow_other : number -> number -> number)
    (p mr ms : number) (P r : Q) (n : Z) :
  p =n= Fin P -> mr =n= Fin r -> ms =n= Fin (inject_Z n) -> (0 <= n)%Z ->
  ~ (1 + r) ^ n - 1 == 0 ->
  emi_formula pow_other p mr ms =n= Fin (P * r * (1 + r) ^ n / ((1 + r) ^ n - 1)).
Proof.
  intros Hp Hmr Hms Hn Hden. unfold emi_formula. fin_eval; assumption.
Qed.

Lemma growth_gt_1 (r : Q) (n : Z) : 0 < r -> (0 < n)%Z -> 1 < (1 + r) ^ n.
Proof. intros Hr Hn. apply Qpower_1_lt; [lra | exact Hn]. Qed.

Lemma monthly_rate_pos (rate : Q) : 0 < rate -> 0 < monthly_rate rate.
Proof.
  intros H. unfold monthly_rate.
  apply Qlt_shift_div_l; [reflexivity | lra].
Qed.

Lemma emi_formula_textbook (pow_other : number -> number -> number)
    (p x t : number) (P rate : Q) (tenure : Z) :
  p =n= Fin P -> x =n= Fin rate -> t =n= Fin (inject_Z tenure) ->
  0 < rate -> (0 < tenure)%Z ->
  emi_formula pow_other p (x / (Fin 12 * Fin 100))%js (t * Fin 12)%js
  =n= Fin (textbook_emi P rate tenure).
Proof.
  intros Hp Hx Ht' Hrate Ht.
  apply emi_formula_fin.
  - exact Hp.
  - apply monthly_rate_value. exact Hx.
  - apply months_value_Z. exact Ht'.
  - lia.
  - pose proof (growth_gt_1 (monthly_rate rate) (tenure * 12)
                  (monthly_rate_pos _ Hrate) ltac:(lia)) as Hg.
    unfold monthly_rate in Hg. intros Hz. lra.
Qed.

Lemma rate_test_false (x : number) (rate : Q) :
  x =n= Fin rate -> ~ rate == 0 ->
  ((x / (Fin 12 * Fin 100)) === Fin 0)%js = false.
Proof.
  intros Hx Hrate.
  rewrite (fin_seq _ _ _ 0 (monthly_rate_value _ _ Hx) (num_eq_refl _)).
  apply Qeq_bool_false. unfold monthly_rate. intros Hz. apply Hrate.
  rewrite <- (Qmult_div_r rate 1200) by discriminate.
  rewrite Hz. reflexivity.
Qed.

Lemma rate_test_true (x : number) (rate : Q) :
  x =n= Fin rate -> rate == 0 ->
  ((x / (Fin 12 * Fin 100)) === Fin 0)%js = true.
Proof.
  intros Hx Hrate.
  rewrite (fin_seq _ _ _ 0 (monthly_rate_value _ _ Hx) (num_eq_refl _)).
  apply Qeq_eq_bool. unfold monthly_rate. rewrite Hrate. reflexivity.
Qed.



Lemma num_mul_comm (x y : number) : (x * y)%js =n= (y * x)%js.
Proof.
  destruct x, y; cbn [num_mul num_sign inf_of_sign mul_sign num_eq];
    try exact I; try (destruct (_ ?= 0); exact I).
  rewrite !Qred_correct. apply Qmult_comm.
Qed.

Lemma fin_is_finite (x : number) (a : Q) : x =n= Fin a -> is_finite x.
Proof. destruct x; cbn; auto. Qed.

Lemma num_eq_NaN (x : number) : x =n= NaN -> x = NaN.
Proof. destruct x; cbn; intros H; try contradiction. reflexivity. Qed.

Lemma num_lt_0_fin (t : Q) : num_lt (Fin 0) (Fin t) = true -> 0 < t.
Proof.
  cbn [num_lt num_le]. intros H. apply negb_true_iff in H.
  apply Qle_bool_false in H. exact H.
Qed.



(** ** Rounding and whole amounts *)

Lemma Qfloor_unique (x : Q) (z : Z) :
  inject_Z z <= x -> x < inject_Z (z + 1) -> Qfloor x = z.
Proof.
  intros Hle Hlt.
  pose proof (Qfloor_le x) as H1. pose proof (Qlt_floor x) as H2.
  assert (Ha : (Qfloor x < z + 1)%Z).
  { rewrite Zlt_Qlt. apply Qle_lt_trans with x; assumption. }
  assert (Hb : (z < Qfloor x + 1)%Z).
  { rewrite Zlt_Qlt. apply Qle_lt_trans with x; assumption. }
  lia.
Qed.

Lemma round_half_up_sub_Z (q : Q) (p : Z) :
  round_half_up (q - inject_Z p) = (round_half_up q - p)%Z.
Proof.
  unfold round_half_up. apply Qfloor_unique.
  - pose proof (Qfloor_le (q + (1 # 2))) as H.
    unfold Z.sub. rewrite inject_Z_plus, inject_Z_opp. lra.
  - pose proof (Qlt_floor (q + (1 # 2))) as H.
    replace (Qfloor (q + (1 # 2)) - p + 1)%Z
      with ((Qfloor (q + (1 # 2)) + 1) + - p)%Z by lia.
    rewrite inject_Z_plus, inject_Z_opp. lra.
Qed.

Lemma Math_round_sub_Z (x : number) (p : Z) :
  Math_round x =n= (Math_round (x - Fin (inject_Z p)) + Fin (inject_Z p))%js.
Proof.
  destruct x as [| | |q]; cbn [num_sub num_neg num_add Math_round num_eq];
    try exact I.
  rewrite Qred_correct.
  assert (H : round_half_up (Qred (q + - inject_Z p)) =
              round_half_up (q - inject_Z p)).
  { apply round_half_up_proper. apply Qred_correct. }
  rewrite H, round_half_up_sub_Z. unfold Z.sub.
  rewrite inject_Z_plus, inject_Z_opp. ring.
Qed.



(** ** Income tax and HRA *)





(** ** Input schemas *)

Lemma accepts_min_max (lo hi : Q) (m1 m2 : string) (v : number) :
  match parse_number [Min lo m1; Max hi m2] v with [] => true | _ => false end
  = true
  <-> num_ge v (Fin lo) = true /\ num_le v (Fin hi) = true.
Proof.
  unfold num_ge.
  destruct v as [| | |q];
    cbn [parse_number flat_map run_check num_lt num_le negb app].
  - split; [discriminate | intros [H _]; discriminate].
  - split; [discriminate | intros [_ H]; discriminate].
  - split; [discriminate | intros [H _]; discriminate].
  - destruct (Qle_bool lo q), (Qle_bool q hi); cbn [negb app];
      split; try discriminate; try (intros [? ?]; discriminate); auto.
Qed.

Lemma accepts_min (lo : Q) (m1 : string) (v : number) :
  match parse_number [Min lo m1] v with [] => true | _ => false end = true
  <-> num_ge v (Fin lo) = true.
Proof.
  unfold num_ge.
  destruct v as [| | |q];
    cbn [parse_number flat_map run_check num_lt num_le negb app].
  - split; discriminate.
  - split; reflexivity.
  - split; discriminate.
  - destruct (Qle_bool lo q); cbn [negb app]; split; try discriminate; auto.
Qed.

Lemma rejected_has_issue (s : LoanSchema) (d : LoanFormData) (f : Field) :
  accepts s f (field_value d f) = false ->
  exists msg, In (f, msg) (schema_issues s d).
Proof.
  unfold accepts. intros H.
  destruct (parse_number (field_checks s f) (field_value d f)) as [|msg rest] eqn:E;
    [discriminate|].
  exists msg. unfold schema_issues. apply in_flat_map.
  exists f. split.
  - destruct f; cbn; auto.
  - apply in_map. rewrite E. left. reflexivity.
Qed.

Lemma issue_is_rejected (s : LoanSchema) (d : LoanFormData) (f : Field)
    (msg : string) :
  In (f, msg) (schema_issues s d) -> accepts s f (field_value d f) = false.
Proof.
  unfold schema_issues. intros H. apply in_flat_map in H.
  destruct H as [f' [_ H]]. apply in_map_iff in H.
  destruct H as [m [Hm Hin]]. inversion Hm; subst f' m.
  unfold accepts. destruct (parse_number _ _); [contradiction | reflexivity].
Qed.

Lemma no_issue_all_accepted (s : LoanSchema) (d : LoanFormData) :
  schema_issues s d = [] <->
  forall f, accepts s f (field_value d f) = true.
Proof.
  split.
  - intros H f. destruct (accepts s f (field_value d f)) eqn:E; [reflexivity|].
    destruct (rejected_has_issue s d f E) as [msg Hin].
    rewrite H in Hin. contradiction.
  - intros H. destruct (schema_issues s d) as [|[f msg] rest] eqn:E;
      [reflexivity|].
    assert (Hin : In (f, msg) (schema_issues s d)) by (rewrite E; left; reflexivity).
    apply issue_is_rejected in Hin. rewrite H in Hin. discriminate.
Qed.

(** C6: each of the two loan schemas accepts an interest rate exactly when it
    lies in [0.1, 50], a tenure exactly when it lies in [1, 50] and a loan
    amount exactly when it is at least 1.  A value that is refused gives an
    issue for its field, the issues become the form's errors, and the earlier
    result (EMI form) or schedule and summary (amortization form) stay as
    they were: [onSubmit] is not called. *)
Theorem loan_schema_ranges (pow_other : number -> number -> number)
    (s : LoanSchema) :
  s = emiSchema \/ s = amortizationSchema ->
  (forall v, accepts s interestRate v = true <->
             (v >= Fin 0.1)%js = true /\ (v <= Fin 50)%js = true)
  /\ (forall v, accepts s loanTenure v = true <->
                (v >= Fin 1)%js = true /\ (v <= Fin 50)%js = true)
  /\ (forall v, accepts s loanAmount v = true <-> (v >= Fin 1)%js = true)
  /\ (forall d f, accepts s f (field_value d f) = false ->
        (exists msg, In (f, msg) (schema_issues s d))
        /\ (forall st,
              emi_result (emi_handleSubmit pow_other d st) = emi_result st
              /\ emi_errors (emi_handleSubmit pow_other d st) =
                 schema_issues emiSchema d)
        /\ (forall st,
              amort_handleSubmit pow_other d st =
              Some {| amort_schedule := amort_schedule st;
                      amort_summary := amort_summary st;
                      amort_errors := schema_issues amortizationSchema d |})).
Proof.
  intros Hs.
  assert (Hs' : s = emiSchema) by (destruct Hs; subst; reflexivity).
  clear Hs. subst s.
  split; [|split; [|split]].
  - intros v. apply accepts_min_max.
  - intros v. apply accepts_min_max.
  - intros v. apply accepts_min.
  - intros d f Hrej.
    destruct (rejected_has_issue _ _ _ Hrej) as [msg Hin].
    split; [exists msg; exact Hin|].
    split; intros st.
    + unfold emi_handleSubmit.
      destruct (schema_issues emiSchema d) as [|i rest]; [contradiction|].
      split; reflexivity.
    + unfold amort_handleSubmit.
      change amortizationSchema with emiSchema.
      destruct (schema_issues emiSchema d) as [|i rest]; [contradiction|].
      reflexivity.
Qed.

Lemma loan_schema_ranges_witness :
  accepts emiSchema interestRate (Fin 51) = true <->
  (Fin 51 >= Fin 0.1)%js = true /\ (Fin 51 <= Fin 50)%js = true.
Proof.
  exact (proj1 (loan_schema_ranges (fun _ _ => NaN) emiSchema
                  (or_introl eq_refl)) (Fin 51)).
Defined.

(** ** The PPF loop *)

Lemma ppf_rate_value : (Fin 1 + Fin 7.1 / Fin 100)%js =n= Fin (1 + 0.071).
Proof.
  fin_value.
  - discriminate.
  - reflexivity.
Qed.

Lemma ppf_exponent_value (n k : Z) :
  (Fin (inject_Z n) - Fin (inject_Z k) + Fin 1)%js =n= Fin (inject_Z (n - k + 1)).
Proof.
  fin_value. unfold Z.sub. rewrite !inject_Z_plus, inject_Z_opp. ring.
Qed.

Lemma ppf_iter (pow_other : number -> number -> number) (A : Q) (n : Z) :
  forall (m : nat) (k : Z) (acc : number) (a : Q),
    (1 <= k)%Z -> (k + Z.of_nat m - 1 <= n)%Z -> acc =n= Fin a ->
    iter_from
      (fun year maturityAmount =>
         (maturityAmount +
          Fin A * Math_pow pow_other (Fin 1 + Fin 7.1 / Fin 100)
                    (Fin (inject_Z n) - year + Fin 1))%js)
      k m acc
    =n= Fin (a + A * (1 + 0.071) ^ (n - k - Z.of_nat m + 2) *
                 ((1 + 0.071) ^ Z.of_nat m - 1) / 0.071).
Proof.
  induction m as [|m IH]; intros k acc a Hk Hn Hacc.
  - cbn [iter_from]. rewrite Hacc. cbn [num_eq].
    change ((1 + 0.071) ^ Z.of_nat 0) with 1. field.
  - cbn [iter_from].
    assert (Hbody :
      (acc + Fin A * Math_pow pow_other (Fin 1 + Fin 7.1 / Fin 100)
                       (Fin (inject_Z n) - Fin (inject_Z k) + Fin 1))%js
      =n= Fin (a + A * (1 + 0.071) ^ (n - k + 1))).
    { pose proof ppf_rate_value as Hrate.
      pose proof (ppf_exponent_value n k) as Hexp.
      fin_eval. lia. }
    rewrite (IH (k + 1)%Z _ _ ltac:(lia) ltac:(lia) Hbody).
    cbn [num_eq].
    set (e := (n - (k + 1) - Z.of_nat m + 2)%Z).
    replace (n - k + 1)%Z with (e + Z.of_nat m)%Z by (unfold e; lia).
    replace (n - k - Z.of_nat (S m) + 2)%Z with e by (unfold e; lia).
    replace (Z.of_nat (S m)) with (Z.of_nat m + 1)%Z by lia.
    rewrite !Qpower_plus by discriminate.
    change ((1 + 0.071) ^ 1) with (1 + 0.071).
    field.
Qed.



(** ** The amortization schedule *)

Section Loan.

Variables (P r : Q) (N : Z).
Hypothesis P_pos : 0 < P.
Hypothesis r_pos : 0 < r.
Hypothesis N_pos : (0 < N)%Z.

(** The fixed payment of the loan. *)
Let E : Q := P * r * (1 + r) ^ N / ((1 + r) ^ N - 1).

Lemma loan_growth_gt_1 : 1 < (1 + r) ^ N.
Proof. apply growth_gt_1; assumption. Qed.

Lemma loan_growth_mono (k : nat) :
  (Z.of_nat k <= N)%Z -> (1 + r) ^ Z.of_nat k <= (1 + r) ^ N.
Proof. intros Hk. apply Qpower_le_compat_l; [exact Hk | lra]. Qed.

Lemma loan_growth_ge_1 (k : nat) : 1 <= (1 + r) ^ Z.of_nat k.
Proof. apply Qpower_1_le; [lra | lia]. Qed.

Lemma loan_growth_succ (k : nat) :
  (1 + r) ^ Z.of_nat (S k) == (1 + r) ^ Z.of_nat k * (1 + r).
Proof.
  replace (Z.of_nat (S k)) with (Z.of_nat k + 1)%Z by lia.
  rewrite Qpower_plus by lra. reflexivity.
Qed.

(** The balance after [k] payments, in closed form. *)
Lemma balance_closed (k : nat) :
  balance_after P r E k ==
  P * ((1 + r) ^ N - (1 + r) ^ Z.of_nat k) / ((1 + r) ^ N - 1).
Proof.
  pose proof loan_growth_gt_1 as Hg.
  induction k as [|k IH].
  - cbn [balance_after]. change ((1 + r) ^ Z.of_nat 0) with 1.
    field. lra.
  - cbn [balance_after]. cbv zeta. rewrite IH, loan_growth_succ.
    unfold E. field. lra.
Qed.

Lemma balance_nonneg (k : nat) :
  (Z.of_nat k <= N)%Z -> 0 <= balance_after P r E k.
Proof.
  intros Hk. rewrite balance_closed.
  pose proof loan_growth_gt_1 as Hg.
  pose proof (loan_growth_mono k Hk) as Hm.
  apply Qle_shift_div_l; [lra|]. nra.
Qed.

(** Every payment repays some principal. *)
Lemma principal_part_pos (k : nat) :
  0 < E - balance_after P r E k * r.
Proof.
  pose proof loan_growth_gt_1 as Hg.
  pose proof (loan_growth_ge_1 k) as Hk.
  assert (Heq : E - balance_after P r E k * r ==
                P * r * (1 + r) ^ Z.of_nat k / ((1 + r) ^ N - 1)).
  { rewrite balance_closed. unfold E. field. lra. }
  rewrite Heq. apply Qlt_shift_div_l; [lra|].
  assert (0 < P * r) by nra. nra.
Qed.

Lemma balance_decreasing (k : nat) :
  balance_after P r E (S k) < balance_after P r E k.
Proof.
  pose proof (principal_part_pos k) as H.
  cbn [balance_after]. cbv zeta. lra.
Qed.

Lemma balance_antitone (i j : nat) :
  (i <= j)%nat -> balance_after P r E j <= balance_after P r E i.
Proof.
  induction 1 as [|j Hij IH].
  - apply Qle_refl.
  - pose proof (balance_decreasing j). lra.
Qed.

(** One turn of the loop takes the state of month [k] to that of month
    [k + 1]. *)
Lemma amortization_step_state (e mr : number) (k : nat) (st : AmortState) :
  e =n= Fin E -> mr =n= Fin r -> (Z.of_nat (S k) <= N)%Z ->
  amort_state_at P r E k st ->
  amort_state_at P r E (S k)
    (amortization_step e mr (Fin (inject_Z (Z.of_nat k + 1))) st).
Proof.
  intros He Hmr Hk (HB & HcP & HcI & Hsched).
  pose proof (balance_nonneg (S k) Hk) as Hnn.
  set (B := balance_after P r E k) in *.
  assert (HB' : balance_after P r E (S k) == B - (E - B * r)) by reflexivity.
  assert (Hrem :
    Math_max (Fin 0) (st_remainingBalance st - (e - st_remainingBalance st * mr))%js
    =n= Fin (balance_after P r E (S k))).
  { fin_value. rewrite <- HB'. apply Q.max_r. exact Hnn. }
  assert (HcP' :
    (st_cumulativePrincipal st + (e - st_remainingBalance st * mr))%js
    =n= Fin (P - balance_after P r E (S k))).
  { fin_value. rewrite HB'. ring. }
  assert (HcI' :
    (st_cumulativeInterest st + st_remainingBalance st * mr)%js
    =n= Fin (inject_Z (Z.of_nat (S k)) * E - (P - balance_after P r E (S k)))).
  { fin_value. rewrite HB'.
    replace (Z.of_nat (S k)) with (Z.of_nat k + 1)%Z by lia.
    rewrite inject_Z_plus. ring. }
  unfold amort_state_at, amortization_step. cbv zeta.
  cbn [st_remainingBalance st_cumulativePrincipal st_cumulativeInterest
       st_schedule].
  split; [exact Hrem|]. split; [exact HcP'|]. split; [exact HcI'|].
  rewrite Hsched, seq_S, map_app. cbn [map Nat.add]. f_equal. f_equal.
  unfold amortization_row. cbv zeta. fold B.
  f_equal; apply fin_round; try assumption; fin_eval.
Qed.

Lemma amortization_iter_state (e mr : number) :
  e =n= Fin E -> mr =n= Fin r ->
  forall (m k : nat) (st : AmortState),
    (Z.of_nat (k + m) <= N)%Z ->
    amort_state_at P r E k st ->
    amort_state_at P r E (k + m)
      (iter_from (amortization_step e mr) (Z.of_nat k + 1) m st).
Proof.
  intros He Hmr. induction m as [|m IH]; intros k st Hk Hst.
  - cbn [iter_from]. rewrite Nat.add_0_r. exact Hst.
  - cbn [iter_from].
    replace (k + S m)%nat with (S k + m)%nat by lia.
    replace (Z.of_nat k + 1 + 1)%Z with (Z.of_nat (S k) + 1)%Z by lia.
    apply IH; [lia|].
    apply amortization_step_state; try assumption. lia.
Qed.

End Loan.

(** The schedule of a loan with positive amount, rate and whole tenure: the
    loop returns, with exactly the rows of the months 1 to [12 * tenure]. *)
Lemma generateAmortizationSchedule_rows
    (pow_other : number -> number -> number) (P rate : Q) (tenure : Z) :
  0 < P -> 0 < rate -> (0 < tenure)%Z ->
  generateAmortizationSchedule pow_other
    (Fin P) (Fin rate) (Fin (inject_Z tenure)) =
  Some (map (amortization_row P (monthly_rate rate) (textbook_emi P rate tenure))
            (seq 0 (Z.to_nat (tenure * 12)))).
Proof.
  intros HP Hrate Ht. unfold generateAmortizationSchedule. cbv zeta.
  assert (Hm : (Fin (inject_Z tenure) * Fin 12)%js = Fin (inject_Z (tenure * 12))).
  { cbn [num_mul]. f_equal. rewrite <- (Qred_inject_Z (tenure * 12)).
    apply Qred_complete. rewrite inject_Z_mult. reflexivity. }
  rewrite Hm at 1 2. rewrite for_loop_returns, Qfloor_Z. cbn [option_map].
  f_equal.
  pose proof (amortization_iter_state P (monthly_rate rate) (tenure * 12)
                HP (monthly_rate_pos _ Hrate) ltac:(lia)
                (emi_formula pow_other (Fin P)
                   (Fin rate / (Fin 12 * Fin 100))%js
                   (Fin (inject_Z tenure) * Fin 12)%js)
                (Fin rate / (Fin 12 * Fin 100))%js
                (emi_formula_textbook pow_other _ _ _ P rate tenure
                   (num_eq_refl _) (num_eq_refl _) (num_eq_refl _) Hrate Ht)
                (monthly_rate_value _ _ (num_eq_refl _))
                (Z.to_nat (tenure * 12)) 0%nat
                {| st_remainingBalance := Fin P;
                   st_cumulativePrincipal := Fin 0;
                   st_cumulativeInterest := Fin 0;
                   st_schedule := [] |}) as H.
  cbn [Nat.add Z.of_nat Z.add] in H.
  destruct H as (_ & _ & _ & H).
  - lia.
  - unfold amort_state_at.
    cbn [balance_after st_remainingBalance st_cumulativePrincipal
         st_cumulativeInterest st_schedule seq map num_eq].
    repeat split; try reflexivity; ring.
  - exact H.
Qed.

Lemma round_half_up_mono (a b : Q) :
  a <= b -> (round_half_up a <= round_half_up b)%Z.
Proof. intros H. unfold round_half_up. apply Qfloor_resp_le. lra. Qed.

Lemma round_half_up_nonneg (a : Q) : 0 <= a -> (0 <= round_half_up a)%Z.
Proof. intros H. apply (round_half_up_mono 0 a H). Qed.

Lemma num_le_inject_Z (a b : Z) :
  (a <= b)%Z -> num_le (Fin (inject_Z a)) (Fin (inject_Z b)) = true.
Proof.
  intros H. cbn [num_le]. apply Qle_bool_iff. rewrite <- Zle_Qle. exact H.
Qed.







(** ** Equal arguments give equal results *)

Lemma Math_round_respects (x y : number) :
  x =n= y -> Math_round x =n= Math_round y.
Proof. intros H. rewrite (Math_round_proper _ _ H). reflexivity. Qed.

Lemma Math_ceil_respects (x y : number) :
  x =n= y -> Math_ceil x =n= Math_ceil y.
Proof. intros H. rewrite (Math_ceil_proper _ _ H). reflexivity. Qed.

Lemma if_num_congr (c c' : bool) (a a' b b' : number) :
  c = c' -> a =n= a' -> b =n= b' ->
  (if c then a else b) =n= (if c' then a' else b').
Proof. intros <- Ha Hb. destruct c; assumption. Qed.

Lemma with_default_respects (d : number) (a b : option number) :
  opt_num_eq a b -> with_default d a =n= with_default d b.
Proof.
  destruct a, b; cbn; intros H; try contradiction; [exact H | reflexivity].
Qed.

Lemma loop_fuel_respects (x y : number) : x =n= y -> loop_fuel x = loop_fuel y.
Proof.
  destruct x, y; cbn; intros H; try contradiction; try reflexivity.
  rewrite (Qfloor_comp _ _ H). reflexivity.
Qed.

Lemma for_loop_respects (body body' : number -> number -> number) :
  (forall i i' s s', i =n= i' -> s =n= s' -> body i s =n= body' i' s') ->
  forall (fuel : nat) (i i' b b' s s' : number),
    i =n= i' -> b =n= b' -> s =n= s' ->
    match for_loop fuel i b body s, for_loop fuel i' b' body' s' with
    | Some x, Some x' => x =n= x'
    | None, None => True
    | _, _ => False
    end.
Proof.
  intros Hbody. induction fuel as [|fuel IH]; intros i i' b b' s s' Hi Hb Hs.
  - exact I.
  - cbn [for_loop]. rewrite (num_le_proper _ _ Hi _ _ Hb).
    destruct (num_le i' b').
    + apply IH.
      * apply num_add_proper; [exact Hi | reflexivity].
      * exact Hb.
      * apply Hbody; assumption.
    + exact Hs.
Qed.

Section Determinism.

Variable pow_other : number -> number -> number.
Variable Math_log : number -> number.
Hypothesis pow_other_respects : respects2 pow_other.
Hypothesis Math_log_respects : respects1 Math_log.

Lemma Math_pow_respects (x x' y y' : number) :
  x =n= x' -> y =n= y' ->
  Math_pow pow_other x y =n= Math_pow pow_other x' y'.
Proof.
  intros Hx Hy.
  destruct x as [| | |b], x' as [| | |b']; try contradiction;
    try (apply pow_other_respects; assumption).
  destruct y as [| | |e], y' as [| | |e']; try contradiction;
    try (apply pow_other_respects; assumption).
  cbn [num_eq] in Hx, Hy. unfold Math_pow.
  rewrite (is_integer_proper _ _ Hy), (Qfloor_comp _ _ Hy).
  destruct (is_integer e'); [|apply pow_other_respects; assumption].
  destruct (0 <=? Qfloor e')%Z.
  - cbn [num_eq]. rewrite !Qred_correct, Hx. reflexivity.
  - apply num_div_proper; [reflexivity|]. cbn [num_eq]. rewrite Hx. reflexivity.
Qed.

(** Closes a goal that two expressions built the same way from equal numbers
    are equal. *)
Ltac num_congr :=
  repeat first
    [ assumption
    | apply num_eq_refl
    | reflexivity
    | apply num_sub_proper
    | apply num_add_proper
    | apply num_neg_proper
    | apply num_mul_proper
    | apply num_div_proper
    | apply Math_max_proper
    | apply Math_min_proper
    | apply Math_round_respects
    | apply Math_ceil_respects
    | apply Math_pow_respects
    | apply Math_log_respects
    | apply with_default_respects
    | apply if_num_congr
    | apply num_le_proper
    | apply num_ge_proper
    | apply num_seq_proper ].

Ltac fields_congr :=
  unfold fields_eq; repeat apply Forall2_cons; try apply Forall2_nil;
  num_congr.

Lemma emi_formula_respects (p p' r r' m m' : number) :
  p =n= p' -> r =n= r' -> m =n= m' ->
  emi_formula pow_other p r m =n= emi_formula pow_other p' r' m'.
Proof. intros Hp Hr Hm. unfold emi_formula. num_congr. Qed.

Lemma calculateEMI_respects (p p' r r' t t' : number) :
  p =n= p' -> r =n= r' -> t =n= t' ->
  fields_eq (EMIResult_fields (calculateEMI pow_other p r t))
            (EMIResult_fields (calculateEMI pow_other p' r' t')).
Proof.
  intros Hp Hr Ht. unfold calculateEMI. cbv zeta.
  assert (Hc : ((r / (Fin 12 * Fin 100)) === Fin 0)%js =
               ((r' / (Fin 12 * Fin 100)) === Fin 0)%js) by num_congr.
  rewrite Hc. destruct ((r' / (Fin 12 * Fin 100)) === Fin 0)%js;
    unfold EMIResult_fields;
    cbn [EMIResult.emi EMIResult.totalAmount EMIResult.totalInterest];
    fields_congr.
Qed.

Lemma calculateSIP_respects (a a' r r' t t' : number) :
  a =n= a' -> r =n= r' -> t =n= t' ->
  fields_eq (SIPResult_fields (calculateSIP pow_other a r t))
            (SIPResult_fields (calculateSIP pow_other a' r' t')).
Proof.
  intros Ha Hr Ht. unfold calculateSIP, SIPResult_fields. cbv zeta.
  cbn [SIPResult.futureValue SIPResult.totalInvestment SIPResult.totalReturns].
  fields_congr.
Qed.

Lemma calculateCompoundInterest_respects
    (p p' r r' t t' : number) (f f' : option number) :
  p =n= p' -> r =n= r' -> t =n= t' -> opt_num_eq f f' ->
  fields_eq
    (CompoundResult_fields (calculateCompoundInterest pow_other p r t f))
    (CompoundResult_fields (calculateCompoundInterest pow_other p' r' t' f')).
Proof.
  intros Hp Hr Ht Hf.
  unfold calculateCompoundInterest, CompoundResult_fields. cbv zeta.
  cbn [CompoundResult.amount CompoundResult.interest CompoundResult.principal].
  fields_congr.
Qed.

Lemma calculatePPF_respects (a a' : number) (t t' : option number) :
  a =n= a' -> opt_num_eq t t' ->
  opt_fields_eq PPFResult_fields
    (calculatePPF pow_other a t) (calculatePPF pow_other a' t').
Proof.
  intros Ha Ht. unfold calculatePPF. cbv zeta.
  pose proof (with_default_respects (Fin 15) t t' Ht) as Hten.
  rewrite (loop_fuel_respects _ _ Hten).
  match goal with
  | |- opt_fields_eq _
         match for_loop ?f ?i ?b ?body ?s with _ => _ end
         match for_loop _ ?i' ?b' ?body' ?s' with _ => _ end =>
      pose proof (for_loop_respects body body'
                    ltac:(intros; cbv beta; num_congr)
                    f i i' b b' s s'
                    (num_eq_refl _) Hten (num_eq_refl _)) as Hloop;
      destruct (for_loop f i b body s), (for_loop f i' b' body' s')
  end; try contradiction; [|exact I].
  unfold opt_fields_eq, PPFResult_fields.
  cbn [PPFResult.maturityAmount PPFResult.totalInvestment PPFResult.interest].
  fields_congr.
Qed.

Lemma calculateRetirementCorpus_respects
    (a a' b b' c c' d d' e e' : number) :
  a =n= a' -> b =n= b' -> c =n= c' -> d =n= d' -> e =n= e' ->
  fields_eq
    (RetirementResult_fields (calculateRetirementCorpus pow_other a b c d e))
    (RetirementResult_fields (calculateRetirementCorpus pow_other a' b' c' d' e')).
Proof.
  intros Ha Hb Hc Hd He.
  unfold calculateRetirementCorpus, RetirementResult_fields. cbv zeta.
  cbn [RetirementResult.requiredCorpus RetirementResult.monthlySIP
       RetirementResult.futureMonthlyExpenses RetirementResult.currentValue].
  fields_congr.
Qed.

Lemma calculateFIRE_respects (a a' b b' c c' d d' e e' : number) :
  a =n= a' -> b =n= b' -> c =n= c' -> d =n= d' -> e =n= e' ->
  fields_eq (FIREResult_fields (calculateFIRE Math_log a b c d e))
            (FIREResult_fields (calculateFIRE Math_log a' b' c' d' e')).
Proof.
  intros Ha Hb Hc Hd He. unfold calculateFIRE. cbv zeta.
  assert (Hcond : (b >= c * Fin 12 * Fin 25)%js = (b' >= c' * Fin 12 * Fin 25)%js)
    by num_congr.
  rewrite Hcond. destruct (b' >= c' * Fin 12 * Fin 25)%js;
    unfold FIREResult_fields;
    cbn [FIREResult.fireNumber FIREResult.yearsToFire FIREResult.fireAge
         FIREResult.shortfall];
    fields_congr.
Qed.

Lemma calculateIncomeTax_respects (g g' : number) (regime : option Regime) :
  g =n= g' ->
  fields_eq (TaxResult_fields (calculateIncomeTax g regime))
            (TaxResult_fields (calculateIncomeTax g' regime)).
Proof.
  intros Hg. unfold calculateIncomeTax, TaxResult_fields. cbv zeta.
  cbn [TaxResult.tax TaxResult.cess TaxResult.totalTax TaxResult.netIncome].
  destruct (with_default New regime); fields_congr.
Qed.

Lemma calculateHRAExemption_respects
    (s s' h h' r r' : number) (metro : bool) :
  s =n= s' -> h =n= h' -> r =n= r' ->
  fields_eq (HRAResult_fields (calculateHRAExemption s h r metro))
            (HRAResult_fields (calculateHRAExemption s' h' r' metro)).
Proof.
  intros Hs Hh Hr. unfold calculateHRAExemption, HRAResult_fields. cbv zeta.
  cbn [HRAResult.hraExemption HRAResult.taxableHRA HRAResult.actualRent
       HRAResult.basicSalary].
  fields_congr.
Qed.

Lemma calculateEmergencyFund_respects
    (m m' d d' : number) (js : JobStability) (ins : bool) :
  m =n= m' -> d =n= d' ->
  fields_eq (EmergencyResult_fields (calculateEmergencyFund m d js ins))
            (EmergencyResult_fields (calculateEmergencyFund m' d' js ins)).
Proof.
  intros Hm Hd. unfold calculateEmergencyFund, EmergencyResult_fields.
  cbv zeta.
  cbn [EmergencyResult.recommendedAmount EmergencyResult.months
       EmergencyResult.monthlyExpenses].
  destruct js, ins; cbn [negb]; fields_congr.
Qed.

Lemma calculateBreakEven_respects (f f' v v' p p' : number) :
  f =n= f' -> v =n= v' -> p =n= p' ->
  fields_eq (BreakEvenResult_fields (calculateBreakEven f v p))
            (BreakEvenResult_fields (calculateBreakEven f' v' p')).
Proof.
  intros Hf Hv Hp. unfold calculateBreakEven, BreakEvenResult_fields. cbv zeta.
  cbn [BreakEvenResult.breakEvenUnits BreakEvenResult.breakEvenRevenue
       BreakEvenResult.contributionMargin
       BreakEvenResult.contributionMarginPercent].
  fields_congr.
Qed.

End Determinism.



(** * Further properties of the code *)

(** ** The schedule loop returns *)

Lemma schedule_length_iter (e mr : number) :
  forall (m : nat) (k : Z) (st : AmortState),
    List.length (st_schedule (iter_from (amortization_step e mr) k m st)) =
    (List.length (st_schedule st) + m)%nat.
Proof.
  induction m as [|m IH]; intros k st.
  - cbn [iter_from]. lia.
  - cbn [iter_from]. rewrite IH. unfold amortization_step. cbv zeta.
    cbn [st_schedule]. rewrite length_app. cbn [List.length]. lia.
Qed.

Lemma schedule_loop_returns (pow_other : number -> number -> number)
    (loan rate : number) (t : Q) :
  exists schedule,
    generateAmortizationSchedule pow_other loan rate (Fin t) = Some schedule
    /\ List.length schedule = Z.to_nat (Qfloor (t * 12)).
Proof.
  unfold generateAmortizationSchedule. cbv zeta. cbn [num_mul].
  rewrite for_loop_returns. cbn [option_map].
  eexists. split; [reflexivity|].
  rewrite schedule_length_iter. cbn [st_schedule List.length Nat.add].
  rewrite (Qfloor_comp _ _ (Qred_correct (t * 12))). reflexivity.
Qed.


Lemma calculateEMI_value (pow_other : number -> number -> number)
    (p x t : number) (P rate : Q) (n : Z) :
  p =n= Fin P -> x =n= Fin rate -> t =n= Fin (inject_Z n) ->
  0 < rate -> (0 < n)%Z ->
  let E := textbook_emi P rate n in
  calculateEMI pow_other p x t =
  {| EMIResult.emi := Fin (inject_Z (round_half_up E));
     EMIResult.totalAmount :=
       Fin (inject_Z (round_half_up (E * inject_Z (n * 12))));
     EMIResult.totalInterest :=
       Fin (inject_Z (round_half_up (E * inject_Z (n * 12) - P))) |}.
Proof.
  intros Hp Hx Ht Hrate Hn E. unfold calculateEMI. cbv zeta.
  rewrite (rate_test_false x rate Hx) by lra.
  pose proof (emi_formula_textbook pow_other p x t P rate n Hp Hx Ht Hrate Hn)
    as He. fold E in He.
  pose proof (months_value_Z t n Ht) as Hm.
  f_equal; apply fin_round; fin_eval.
Qed.

(** ** The schedule of a loan *)

Section LoanSchedule.

Variable pow_other : number -> number -> number.
Variables (P rate : Q) (tenure : Z).
Hypothesis P_pos : 0 < P.
Hypothesis rate_pos : 0 < rate.
Hypothesis tenure_pos : (0 < tenure)%Z.

Let r : Q := monthly_rate rate.
Let E : Q := textbook_emi P rate tenure.
Let N : nat := Z.to_nat (tenure * 12).

Lemma schedule_is_rows :
  generateAmortizationSchedule pow_other
    (Fin P) (Fin rate) (Fin (inject_Z tenure)) =
  Some (map (amortization_row P r E) (seq 0 N)).
Proof. apply generateAmortizationSchedule_rows; assumption. Qed.

Lemma schedule_row_at (i : nat) (row : AmortizationRow.t) :
  nth_error (map (amortization_row P r E) (seq 0 N)) i = Some row ->
  (i < N)%nat /\ row = amortization_row P r E i.
Proof.
  rewrite nth_error_map, nth_error_seq.
  destruct (Nat.ltb_spec i N) as [Hlt|Hge]; [|discriminate].
  cbn [option_map Nat.add]. intros Hrow. injection Hrow as <-.
  split; [assumption | reflexivity].
Qed.

Lemma final_balance_zero : balance_after P r E N == 0.
Proof.
  pose proof (monthly_rate_pos _ rate_pos) as Hr.
  pose proof (growth_gt_1 r (tenure * 12) Hr ltac:(lia)) as Hg.
  pose proof (balance_closed P r (tenure * 12) Hr ltac:(lia) N) as Hc.
  change (P * r * (1 + r) ^ (tenure * 12) / ((1 + r) ^ (tenure * 12) - 1))
    with E in Hc.
  rewrite Hc. unfold N. rewrite Z2Nat.id by lia. field. lra.
Qed.




End LoanSchedule.

(** ** The loan forms on accepted data *)

Lemma in_range_fin (lo hi : Q) (v : number) :
  (v >= Fin lo)%js = true -> (v <= Fin hi)%js = true ->
  exists q, v = Fin q /\ lo <= q /\ q <= hi.
Proof.
  unfold num_ge. destruct v as [| | |q]; cbn [num_le]; try discriminate.
  intros H1 H2. apply Qle_bool_iff in H1, H2. exists q. auto.
Qed.

Lemma loan_schema_accepted (d : LoanFormData) :
  schema_issues emiSchema d = [] ->
  (data_loanAmount d >= Fin 1)%js = true
  /\ (exists rate, data_interestRate d = Fin rate /\ 0.1 <= rate /\ rate <= 50)
  /\ (exists tenure, data_loanTenure d = Fin tenure /\ 1 <= tenure /\ tenure <= 50).
Proof.
  intros H. pose proof (proj1 (no_issue_all_accepted _ _) H) as Hall.
  pose proof (Hall loanAmount) as Ha.
  pose proof (Hall interestRate) as Hr.
  pose proof (Hall loanTenure) as Ht.
  cbn [field_value] in Ha, Hr, Ht.
  apply accepts_min in Ha. apply accepts_min_max in Hr, Ht.
  split; [exact Ha|]. split.
  - apply in_range_fin; tauto.
  - apply in_range_fin; tauto.
Qed.

(** On data the EMI schema accepts, the rate and the tenure are finite
    numbers within their ranges, and the form shows the result of the general
    formula: with a rate of at least 0.1 the zero-rate branch of
    [calculateEMI] is never the one taken. *)
Theorem emi_form_accepted (pow_other : number -> number -> number)
    (d : LoanFormData) :
  schema_issues emiSchema d = [] ->
  exists rate tenure,
    data_interestRate d = Fin rate /\ 0.1 <= rate /\ rate <= 50
    /\ data_loanTenure d = Fin tenure /\ 1 <= tenure /\ tenure <= 50
    /\ forall st,
         emi_handleSubmit pow_other d st =
         let months := (Fin tenure * Fin 12)%js in
         let e :=
           emi_formula pow_other (data_loanAmount d)
             (Fin rate / (Fin 12 * Fin 100))%js months in
         {| emi_result :=
              Some {| EMIResult.emi := Math_round e;
                      EMIResult.totalAmount := Math_round (e * months)%js;
                      EMIResult.totalInterest :=
                        Math_round (e * months - data_loanAmount d)%js |};
            emi_errors := [] |}.
Proof.
  intros H.
  destruct (loan_schema_accepted d H)
    as (_ & (rate & Hrate & Hr1 & Hr2) & (tenure & Hten & Ht1 & Ht2)).
  exists rate, tenure. repeat (split; [assumption|]).
  intros st. unfold emi_handleSubmit. rewrite H.
  unfold emi_onSubmit, calculateEMI. cbv zeta. rewrite Hrate, Hten.
  rewrite (rate_test_false (Fin rate) rate (num_eq_refl _)); [reflexivity|].
  intros Hz. rewrite Hz in Hr1. revert Hr1. apply Qlt_not_le. reflexivity.
Qed.

Lemma emi_form_accepted_witness :
  exists rate tenure,
    data_interestRate (mkLoanFormData (Fin 1000000) (Fin 8.5) (Fin 15)) = Fin rate
    /\ 0.1 <= rate /\ rate <= 50
    /\ data_loanTenure (mkLoanFormData (Fin 1000000) (Fin 8.5) (Fin 15)) = Fin tenure
    /\ 1 <= tenure /\ tenure <= 50.
Proof.
  destruct (emi_form_accepted (fun _ _ => NaN)
              (mkLoanFormData (Fin 1000000) (Fin 8.5) (Fin 15)) eq_refl)
    as (rate & tenure & H1 & H2 & H3 & H4 & H5 & H6 & _).
  exists rate, tenure. repeat split; assumption.
Defined.

(** Submitting the amortization form always returns: a tenure of [Infinity],
    on which the schedule loop would not stop, is refused by the schema.  On
    accepted data no error is left and the schedule has between 12 and 600
    rows. *)
Theorem amort_handleSubmit_returns (pow_other : number -> number -> number)
    (d : LoanFormData) (st : AmortForm) :
  exists st',
    amort_handleSubmit pow_other d st = Some st'
    /\ (schema_issues amortizationSchema d = [] ->
        amort_errors st' = []
        /\ (12 <= List.length (amort_schedule st') <= 600)%nat).
Proof.
  unfold amort_handleSubmit.
  destruct (schema_issues amortizationSchema d) as [|i rest] eqn:Hiss.
  - destruct (loan_schema_accepted d Hiss)
      as (_ & _ & (tenure & Hten & Ht1 & Ht2)).
    unfold amort_onSubmit. rewrite Hten.
    destruct (schedule_loop_returns pow_other
                (data_loanAmount d) (data_interestRate d) tenure)
      as (schedule & Hs & Hlen).
    rewrite Hs. eexists. split; [reflexivity|].
    intros _. cbn [amort_errors amort_schedule]. split; [reflexivity|].
    rewrite Hlen.
    pose proof (Qfloor_resp_le 12 (tenure * 12) ltac:(lra)) as H1.
    pose proof (Qfloor_resp_le (tenure * 12) 600 ltac:(lra)) as H2.
    change (Qfloor 12) with 12%Z in H1. change (Qfloor 600) with 600%Z in H2.
    lia.
  - eexists. split; [reflexivity|]. discriminate.
Qed.

(** ** Income tax: no cliff *)

Lemma round_le_fin (x y : number) (a b : Q) :
  x =n= Fin a -> y =n= Fin b -> a <= b ->
  (Math_round x <= Math_round y)%js = true.
Proof.
  intros Hx Hy Hab.
  rewrite (fin_round _ _ Hx), (fin_round _ _ Hy).
  apply num_le_inject_Z, round_half_up_mono. exact Hab.
Qed.

Lemma round_nonneg_fin (x : number) (a : Q) :
  x =n= Fin a -> 0 <= a -> (Fin 0 <= Math_round x)%js = true.
Proof.
  intros Hx Ha. rewrite (fin_round _ _ Hx).
  apply (num_le_inject_Z 0), round_half_up_nonneg. exact Ha.
Qed.

Ltac qle_hyps :=
  repeat match goal with
         | H : Qle_bool _ _ = true |- _ => apply Qle_bool_iff in H
         | H : Qle_bool _ _ = false |- _ => apply Qle_bool_false in H
         end.

Ltac split_tests :=
  repeat match goal with
         | |- context [Qle_bool ?a ?b] => destruct (Qle_bool a b) eqn:?
         end.

Lemma old_regime_total_tax_mono (g1 g2 : Q) :
  g1 <= g2 ->
  (TaxResult.totalTax (calculateIncomeTax (Fin g1) (Some Old)) <=
   TaxResult.totalTax (calculateIncomeTax (Fin g2) (Some Old)))%js = true.
Proof.
  intros Hg. unfold calculateIncomeTax. cbv zeta.
  cbn [with_default TaxResult.totalTax num_le]. split_tests; qle_hyps;
    (eapply round_le_fin; [fin_eval | fin_eval | lra]).
Qed.



(** ** Schemas of the other forms *)

Lemma field_ok (name : string) (checks : list Check) (v : number) :
  field_issues name checks v = [] ->
  match parse_number checks v with [] => true | _ => false end = true.
Proof.
  unfold field_issues. destruct (parse_number checks v); [reflexivity|].
  discriminate.
Qed.

Lemma field_ok_min (name : string) (lo : Q) (m : string) (q : Q) :
  field_issues name [Min lo m] (Fin q) = [] -> lo <= q.
Proof.
  intros H. apply field_ok, accepts_min in H.
  unfold num_ge in H. cbn [num_le] in H. apply Qle_bool_iff. exact H.
Qed.

Lemma field_ok_min_max (name : string) (lo hi : Q) (m1 m2 : string) (q : Q) :
  field_issues name [Min lo m1; Max hi m2] (Fin q) = [] -> lo <= q /\ q <= hi.
Proof.
  intros H. apply field_ok, accepts_min_max in H. destruct H as [H1 H2].
  unfold num_ge in H1. cbn [num_le] in H1, H2.
  split; apply Qle_bool_iff; assumption.
Qed.

(** ** HRA exemption: bounds *)

Lemma hra_exemption_value (salary hra rentPaid : Q) (metro : bool) :
  Math_min (Fin hra)
    (Fin salary * Fin 0.5 * (if metro then Fin 0.5 else Fin 0.4))%js
    (Math_max (Fin 0) (Fin rentPaid - Fin salary * Fin 0.5 * Fin 0.1)%js)
  =n= Fin (hra_rule salary hra rentPaid metro).
Proof.
  unfold hra_rule. cbv zeta.
  destruct metro; fin_value; unfold Qmin3;
    (apply Q.min_compat;
     [apply Q.min_compat; [reflexivity | ring]
     |apply Q.max_compat; [reflexivity | ring]]).
Qed.

Lemma hra_rule_bounds (salary hra rentPaid : Q) (metro : bool) :
  0 <= salary -> 0 <= hra ->
  0 <= hra_rule salary hra rentPaid metro <= hra.
Proof.
  intros Hs Hh. unfold hra_rule, Qmin3. cbv zeta. split.
  - apply Q.min_glb; [apply Q.min_glb|].
    + exact Hh.
    + destruct metro; nra.
    + apply Q.le_max_l.
  - eapply Qle_trans; [apply Q.le_min_l|]. apply Q.le_min_l.
Qed.

(** On finite data the HRA schema accepts, the exemption shown lies between
    0 and the HRA received (rounded) and the taxable HRA is not negative;
    when the rent is at most 10% of the basic salary (5% of the salary) the
    exemption is 0 and the whole HRA is taxable. *)
Theorem hra_form_bounds (salary hra rentPaid : Q) (metro : bool) :
  let d := mkHRAFormData (Fin salary) (Fin hra) (Fin rentPaid) metro in
  hraSchema_issues d = [] ->
  let r := hra_onSubmit d in
  (Fin 0 <= HRAResult.hraExemption r)%js = true
  /\ (HRAResult.hraExemption r <= Math_round (Fin hra))%js = true
  /\ (Fin 0 <= HRAResult.taxableHRA r)%js = true
  /\ (rentPaid <= salary * 0.05 ->
      HRAResult.hraExemption r = Fin 0
      /\ HRAResult.taxableHRA r = Math_round (Fin hra)).
Proof.
  intros d Hiss r. subst d r. unfold hraSchema_issues in Hiss.
  cbn [hra_salary hra_hra hra_rentPaid] in Hiss.
  apply app_eq_nil in Hiss. destruct Hiss as [Hs Hiss].
  apply app_eq_nil in Hiss. destruct Hiss as [Hh Hr].
  apply field_ok_min in Hs, Hh, Hr.
  unfold hra_onSubmit, calculateHRAExemption. cbv zeta.
  cbn [hra_salary hra_hra hra_rentPaid hra_isMetroCity
       HRAResult.hraExemption HRAResult.taxableHRA].
  pose proof (hra_exemption_value salary hra rentPaid metro) as Hv.
  pose proof (hra_rule_bounds salary hra rentPaid metro Hs Hh) as [Hlo Hhi].
  split; [|split; [|split]].
  - eapply round_nonneg_fin; [exact Hv | exact Hlo].
  - eapply round_le_fin; [exact Hv | reflexivity | exact Hhi].
  - eapply round_nonneg_fin; [fin_eval | lra].
  - intros Hrent.
    assert (Hz : hra_rule salary hra rentPaid metro == 0).
    { apply Qle_antisym; [|exact Hlo].
      unfold hra_rule, Qmin3. cbv zeta.
      eapply Qle_trans; [apply Q.le_min_r|].
      apply Q.max_lub; [apply Qle_refl | lra]. }
    split.
    + rewrite (fin_round _ _ Hv). rewrite (round_half_up_proper _ _ Hz).
      reflexivity.
    + apply fin_round. fin_value. rewrite Hz. ring.
Qed.

Lemma hra_form_bounds_witness :
  (HRAResult.hraExemption
     (hra_onSubmit (mkHRAFormData (Fin 600000) (Fin 180000) (Fin 240000) true))
   <= Math_round (Fin 180000))%js = true.
Proof.
  exact (proj1 (proj2 (hra_form_bounds 600000 180000 240000 true eq_refl))).
Defined.

(** ** Formulas without a zero-rate guard *)



(** ** Emergency fund *)



(** ** Break-even *)

Lemma round_half_up_inject_Z (z : Z) : round_half_up (inject_Z z) = z.
Proof.
  unfold round_half_up. apply Qfloor_unique.
  - lra.
  - rewrite inject_Z_plus. change (inject_Z 1) with 1. lra.
Qed.

Lemma round_le_int (x : number) (a : Q) (z : Z) :
  x =n= Fin a -> a <= inject_Z z ->
  (Math_round x <= Fin (inject_Z z))%js = true.
Proof.
  intros Hx Ha. rewrite (fin_round _ _ Hx). apply num_le_inject_Z.
  pose proof (round_half_up_mono _ _ Ha) as H.
  rewrite round_half_up_inject_Z in H. exact H.
Qed.

(** With a price equal to the variable cost per unit the contribution
    margin is 0 and [calculateBreakEven] divides by it: the break-even units
    and revenue are [Infinity] when there are fixed costs, and the units are
    [NaN] when there are none. *)
Theorem calculateBreakEven_zero_margin (fc p : Q) :
  0 < p ->
  let r := calculateBreakEven (Fin fc) (Fin p) (Fin p) in
  BreakEvenResult.contributionMargin r = Fin 0
  /\ (0 < fc ->
      BreakEvenResult.breakEvenUnits r = PInf
      /\ BreakEvenResult.breakEvenRevenue r = PInf)
  /\ (fc == 0 -> BreakEvenResult.breakEvenUnits r = NaN).
Proof.
  intros Hp r. subst r. unfold calculateBreakEven. cbv zeta.
  cbn [BreakEvenResult.contributionMargin BreakEvenResult.breakEvenUnits
       BreakEvenResult.breakEvenRevenue].
  assert (Hcm : (Fin p - Fin p)%js =n= Fin 0) by (fin_value; ring).
  split; [|split].
  - rewrite (fin_round _ _ Hcm). reflexivity.
  - intros Hfc.
    assert (Hu : (Fin fc / (Fin p - Fin p))%js = PInf).
    { destruct (Fin p - Fin p)%js as [| | |c]; try contradiction.
      cbn [num_eq] in Hcm. cbn [num_div].
      rewrite (Qeq_eq_bool _ _ Hcm).
      rewrite (proj1 (Qgt_alt fc 0) Hfc). reflexivity. }
    rewrite Hu. cbn [num_mul num_sign Math_round].
    rewrite (proj1 (Qgt_alt p 0) Hp). split; reflexivity.
  - intros Hfc.
    destruct (Fin p - Fin p)%js as [| | |c]; try contradiction.
    cbn [num_eq] in Hcm. cbn [num_div].
    rewrite (Qeq_eq_bool _ _ Hcm).
    rewrite (proj1 (Qeq_alt fc 0) Hfc). reflexivity.
Qed.

Lemma calculateBreakEven_zero_margin_witness :
  BreakEvenResult.contributionMargin
    (calculateBreakEven (Fin 500000) (Fin 200) (Fin 200)) = Fin 0.
Proof.
  exact (proj1 (calculateBreakEven_zero_margin 500000 200 eq_refl)).
Defined.



(** ** Car loan and retirement forms *)

(** Splits the issues of an accepted form into the ranges of its fields. *)
Ltac split_issues H :=
  repeat (apply app_eq_nil in H;
          let Hf := fresh "Hf" in destruct H as [Hf H]);
  repeat match goal with
         | H' : field_issues _ [Min _ _] (Fin _) = [] |- _ =>
             apply field_ok_min in H'
         | H' : field_issues _ [Min _ _; Max _ _] (Fin _) = [] |- _ =>
             apply field_ok_min_max in H'; destruct H'
         end.



Lemma sub_inject_Z (a b : Z) :
  (Fin (inject_Z a) - Fin (inject_Z b))%js =n= Fin (inject_Z (a - b)).
Proof.
  fin_value. unfold Z.sub. rewrite inject_Z_plus, inject_Z_opp. ring.
Qed.

Lemma round_pos (a : Q) : 1 <= a -> (0 < round_half_up a)%Z.
Proof.
  intros H. pose proof (round_half_up_mono 1 a H) as Hm.
  change (round_half_up 1) with 1%Z in Hm. lia.
Qed.



(** ** Income tax form *)

Lemma or_zero_value (d : Q) : or_zero (Some (Fin d)) =n= Fin d.
Proof.
  cbn [or_zero truthy]. destruct (Qeq_bool d 0) eqn:E; cbn [negb num_eq].
  - apply Qeq_bool_eq in E. symmetry. exact E.
  - reflexivity.
Qed.

Lemma taxable_income_old (g d : Q) :
  Math_max (Fin 0) (Fin g - or_zero (Some (Fin d)))%js =n= Fin (Qmax 0 (g - d)).
Proof.
  pose proof (or_zero_value d) as Hd. fin_eval.
Qed.

Lemma tax_fields_of (x : number) (t : Q) (regime : option Regime) :
  x =n= Fin t ->
  TaxResult.tax (calculateIncomeTax x regime) =
    TaxResult.tax (calculateIncomeTax (Fin t) regime)
  /\ TaxResult.totalTax (calculateIncomeTax x regime) =
     TaxResult.totalTax (calculateIncomeTax (Fin t) regime)
  /\ TaxResult.netIncome (calculateIncomeTax x regime) =
     TaxResult.netIncome (calculateIncomeTax (Fin t) regime).
Proof.
  intros Hx. destruct x as [| | |q]; try contradiction. cbn [num_eq] in Hx.
  unfold calculateIncomeTax. cbv zeta.
  cbn [TaxResult.tax TaxResult.totalTax TaxResult.netIncome num_le].
  assert (Hle : forall c, Qle_bool q c = Qle_bool t c).
  { intros c. apply Qle_bool_comp; [exact Hx | reflexivity]. }
  rewrite !Hle.
  destruct (with_default New regime); split_tests;
    repeat split; apply Math_round_proper;
    repeat first [ apply num_eq_refl | exact Hx
                 | apply num_sub_proper | apply num_add_proper
                 | apply num_neg_proper | apply num_mul_proper ].
Qed.

(** What the income tax form computes from the deductions entered.  Under
    the new regime they are ignored.  Under the old regime the tax is taken
    on the income less the deductions (not below 0): larger deductions never
    raise the total tax, the net income shown is net of the deductions too
    (at most the taxable income), and deductions that reach the income leave
    no tax and a net income of 0. *)
Theorem incomeTax_form_deductions (g d1 d2 : Q) :
  0 <= g -> 0 <= d1 -> d1 <= d2 ->
  let shown regime d :=
    incomeTax_onSubmit (mkIncomeTaxFormData (Fin g) regime (Some (Fin d))) in
  itd_calculation (shown New d1) = calculateIncomeTax (Fin g) (Some New)
  /\ itd_calculation (shown New d2) = itd_calculation (shown New d1)
  /\ (TaxResult.totalTax (itd_calculation (shown Old d2)) <=
      TaxResult.totalTax (itd_calculation (shown Old d1)))%js = true
  /\ (TaxResult.netIncome (itd_calculation (shown Old d1)) <=
      Math_round (itd_taxableIncome (shown Old d1)))%js = true
  /\ itd_taxableIncome (shown Old d1) =n= Fin (Qmax 0 (g - d1))
  /\ (g <= d1 ->
      TaxResult.totalTax (itd_calculation (shown Old d1)) = Fin 0
      /\ TaxResult.netIncome (itd_calculation (shown Old d1)) = Fin 0).
Proof.
  intros Hg Hd1 Hd12 shown. subst shown. cbv beta.
  unfold incomeTax_onSubmit. cbv zeta.
  cbn [it_grossIncome it_regime it_deductions itd_calculation
       itd_taxableIncome].
  pose proof (taxable_income_old g d1) as Ht1.
  pose proof (taxable_income_old g d2) as Ht2.
  destruct (tax_fields_of _ _ (Some Old) Ht1) as (_ & Htt1 & Hni1).
  destruct (tax_fields_of _ _ (Some Old) Ht2) as (_ & Htt2 & _).
  assert (Hmax : Qmax 0 (g - d2) <= Qmax 0 (g - d1)).
  { apply Q.max_le_compat; [apply Qle_refl | lra]. }
  assert (Hnn : 0 <= Qmax 0 (g - d1)) by apply Q.le_max_l.
  split; [reflexivity|]. split; [reflexivity|].
  split; [|split; [|split]].
  - rewrite Htt1, Htt2.
    apply old_regime_total_tax_mono. exact Hmax.
  - rewrite Hni1, (Math_round_proper _ _ Ht1).
    set (t := Qmax 0 (g - d1)) in *.
    unfold calculateIncomeTax. cbv zeta.
    cbn [with_default TaxResult.netIncome num_le].
    split_tests; qle_hyps;
      (eapply round_le_fin; [fin_eval | apply num_eq_refl | lra]).
  - exact Ht1.
  - intros Hgd.
    assert (Hz : Qmax 0 (g - d1) == 0).
    { apply Q.max_l. lra. }
    assert (Hx :
      Math_max (Fin 0) (Fin g - or_zero (Some (Fin d1)))%js =n= Fin 0).
    { rewrite Ht1. exact Hz. }
    destruct (tax_fields_of _ _ (Some Old) Hx) as (_ & Ha & Hb).
    rewrite Ha, Hb. split; reflexivity.
Qed.

Lemma incomeTax_form_deductions_witness :
  (TaxResult.totalTax
     (itd_calculation
        (incomeTax_onSubmit
           (mkIncomeTaxFormData (Fin 1000000) Old (Some (Fin 150000))))) <=
   TaxResult.totalTax
     (itd_calculation
        (incomeTax_onSubmit
           (mkIncomeTaxFormData (Fin 1000000) Old (Some (Fin 50000))))))%js
  = true.
Proof.
  exact (proj1 (proj2 (proj2 (incomeTax_form_deductions 1000000 50000 150000
                                ltac:(discriminate) ltac:(discriminate)
                                ltac:(discriminate))))).
Defined.

(** ** The displayed schedule *)

Lemma Qtrunc_inject_Z (z : Z) : Qtrunc (inject_Z z) = z.
Proof.
  unfold Qtrunc. destruct (Qle_bool 0 (inject_Z z)).
  - apply Qfloor_Z.
  - apply Qceiling_Z.
Qed.

Lemma Qtrunc_comp (a b : Q) : a == b -> Qtrunc a = Qtrunc b.
Proof.
  intros H. unfold Qtrunc.
  rewrite (Qle_bool_comp 0 0 a b (Qeq_refl 0) H).
  rewrite (Qfloor_comp _ _ H), (Qceiling_comp _ _ H). reflexivity.
Qed.

Lemma slice_index_nat (len : nat) (x : number) (k : nat) :
  x =n= Fin (inject_Z (Z.of_nat k)) -> slice_index len x = Nat.min k len.
Proof.
  destruct x as [| | |q]; try contradiction. cbn [num_eq]. intros H.
  unfold slice_index. cbv zeta.
  rewrite (Qtrunc_comp _ _ H), Qtrunc_inject_Z.
  destruct (Z.ltb_spec (Z.of_nat k) 0); [lia|]. rewrite Nat2Z.id. reflexivity.
Qed.

Lemma slice_nat {A : Type} (l : list A) (x y : number) (a b : nat) :
  x =n= Fin (inject_Z (Z.of_nat a)) -> y =n= Fin (inject_Z (Z.of_nat b)) ->
  slice l x y = firstn (Nat.min b (List.length l) - Nat.min a (List.length l))
                  (skipn (Nat.min a (List.length l)) l).
Proof.
  intros Hx Hy. unfold slice. cbv zeta.
  rewrite (slice_index_nat _ _ _ Hx), (slice_index_nat _ _ _ Hy). reflexivity.
Qed.

Lemma firstn_upto {A : Type} (l : list A) (n m : nat) :
  (List.length l <= n)%nat -> (List.length l <= m)%nat ->
  firstn n l = firstn m l.
Proof.
  intros Hn Hm. rewrite !firstn_all2 by assumption. reflexivity.
Qed.

Lemma firstn_plus {A : Type} (a b : nat) :
  forall l : list A, firstn (a + b) l = (firstn a l ++ firstn b (skipn a l))%list.
Proof.
  induction a as [|a IH]; intros l; [reflexivity|].
  destruct l as [|x l].
  - cbn [Nat.add firstn skipn app]. rewrite firstn_nil. reflexivity.
  - cbn [Nat.add firstn skipn app]. rewrite IH. reflexivity.
Qed.

Lemma last_nth_error {A : Type} (l : list A) :
  nth_error l (List.length l - 1) = last (map Some l) None.
Proof.
  induction l as [|a l IH]; [reflexivity|].
  destruct l as [|b l]; [reflexivity|].
  cbn [List.length map last] in *.
  replace (S (S (List.length l)) - 1)%nat with (S (List.length l)) by lia.
  cbn [nth_error]. rewrite <- IH. f_equal. lia.
Qed.

Lemma covered_iff (len y : nat) :
  (1 <= y)%nat -> ((12 * (y - 1) < len)%nat <-> (y <= years_covered len)%nat).
Proof.
  intros Hy. unfold years_covered.
  pose proof (Nat.div_mod_eq (len + 11) 12) as Hd.
  pose proof (Nat.mod_upper_bound (len + 11) 12 ltac:(lia)) as Hm.
  lia.
Qed.

Section DisplayProofs.

Variable show_fraction : Q -> string.
Variable schedule : list AmortizationRow.t.

Lemma yearly_step_value (y : nat) (acc : list YearSummary) :
  (1 <= y)%nat ->
  yearly_step show_fraction schedule (Fin (inject_Z (Z.of_nat y))) acc =
  if (y <=? years_covered (List.length schedule))%nat
  then (acc ++ [year_summary y (year_rows schedule y)])%list
  else acc.
Proof.
  intros Hy. unfold yearly_step. cbv zeta.
  set (len := List.length schedule).
  assert (Hstart :
    ((Fin (inject_Z (Z.of_nat y)) - Fin 1) * Fin 12 + Fin 1)%js
    =n= Fin (inject_Z (Z.of_nat (12 * (y - 1) + 1)))).
  { fin_value.
    replace (Z.of_nat (12 * (y - 1) + 1)) with ((Z.of_nat y + -1) * 12 + 1)%Z
      by lia.
    rewrite inject_Z_plus, inject_Z_mult, inject_Z_plus. reflexivity. }
  assert (Hcond :
    (((Fin (inject_Z (Z.of_nat y)) - Fin 1) * Fin 12 + Fin 1)
     <= array_length schedule)%js
    = (y <=? years_covered len)%nat).
  { unfold array_length. fold len.
    rewrite (fin_le _ _ _ _ Hstart (num_eq_refl _)).
    destruct (Nat.leb_spec y (years_covered len)) as [Hc|Hc].
    - apply Qle_bool_iff. rewrite <- Zle_Qle.
      apply (covered_iff len y Hy) in Hc. lia.
    - apply Qle_bool_false. rewrite <- Zlt_Qlt.
      assert (~ (12 * (y - 1) < len)%nat).
      { intros Hlt. apply (covered_iff len y Hy) in Hlt. lia. }
      lia. }
  rewrite Hcond.
  destruct (Nat.leb_spec y (years_covered len)) as [Hc|Hc]; [|reflexivity].
  apply (covered_iff len y Hy) in Hc.
  assert (Hfrom :
    ((Fin (inject_Z (Z.of_nat y)) - Fin 1) * Fin 12 + Fin 1 - Fin 1)%js
    =n= Fin (inject_Z (Z.of_nat (12 * (y - 1))))).
  { fin_value.
    replace (Z.of_nat (12 * (y - 1) + 1)) with (Z.of_nat (12 * (y - 1)) + 1)%Z
      by lia.
    rewrite inject_Z_plus. change (inject_Z 1) with 1. ring. }
  assert (Hto :
    Math_min2 (Fin (inject_Z (Z.of_nat y)) * Fin 12)%js (array_length schedule)
    =n= Fin (inject_Z (Z.of_nat (Nat.min (12 * y) len)))).
  { unfold array_length. fold len.
    eapply num_eq_trans; [apply fin_min2; [fin_eval | apply num_eq_refl]|].
    cbn [num_eq].
    destruct (Nat.le_ge_cases (12 * y) len) as [Hle|Hge].
    - rewrite Nat.min_l by exact Hle. rewrite Q.min_l.
      + rewrite Nat2Z.inj_mul, inject_Z_mult. apply Qmult_comm.
      + change 12 with (inject_Z 12). rewrite <- inject_Z_mult, <- Zle_Qle. lia.
    - rewrite Nat.min_r by exact Hge. rewrite Q.min_r; [reflexivity|].
      change 12 with (inject_Z 12). rewrite <- inject_Z_mult, <- Zle_Qle. lia. }
  rewrite (slice_nat schedule _ _ _ _ Hfrom Hto). fold len.
  assert (Hrows :
    firstn (Nat.min (Nat.min (12 * y) len) len - Nat.min (12 * (y - 1)) len)
      (skipn (Nat.min (12 * (y - 1)) len) schedule) = year_rows schedule y).
  { unfold year_rows. rewrite (Nat.min_l (12 * (y - 1)) len) by lia.
    destruct (Nat.le_ge_cases (12 * y) len) as [Hle|Hge].
    - f_equal. lia.
    - apply firstn_upto; rewrite length_skipn; fold len; lia. }
  rewrite Hrows. f_equal. f_equal.
  unfold year_summary, column_sum. f_equal.
  - cbn [number_to_string]. rewrite is_integer_inject_Z, Qfloor_Z. reflexivity.
  - rewrite last_nth_error.
    destruct (last (map Some (year_rows schedule y)) None); reflexivity.
Qed.

Lemma yearly_iter :
  forall (m k : nat) (acc : list YearSummary),
    (1 <= k)%nat ->
    iter_from (yearly_step show_fraction schedule) (Z.of_nat k) m acc =
    (acc ++
     map (fun y => year_summary y (year_rows schedule y))
       (seq k (Nat.min (k + m - 1) (years_covered (List.length schedule))
               - (k - 1))))%list.
Proof.
  set (c := years_covered (List.length schedule)).
  assert (Hvalue : forall y acc, (1 <= y)%nat ->
            yearly_step show_fraction schedule (Fin (inject_Z (Z.of_nat y))) acc =
            if (y <=? c)%nat
            then (acc ++ [year_summary y (year_rows schedule y)])%list
            else acc) by (intros; apply yearly_step_value; assumption).
  clearbody c.
  induction m as [|m IH]; intros k acc Hk.
  - cbn [iter_from].
    replace (Nat.min (k + 0 - 1) c - (k - 1))%nat with 0%nat by lia.
    cbn [seq map]. rewrite app_nil_r. reflexivity.
  - cbn [iter_from]. rewrite (Hvalue k acc Hk).
    replace (Z.of_nat k + 1)%Z with (Z.of_nat (S k)) by lia.
    rewrite IH by lia.
    destruct (Nat.leb_spec k c) as [Hc|Hc].
    + replace (Nat.min (k + S m - 1) c - (k - 1))%nat
        with (S (Nat.min (S k + m - 1) c - (S k - 1))) by lia.
      cbn [seq map]. rewrite <- app_assoc. reflexivity.
    + replace (Nat.min (S k + m - 1) c - (S k - 1))%nat with 0%nat by lia.
      replace (Nat.min (k + S m - 1) c - (k - 1))%nat with 0%nat by lia.
      reflexivity.
Qed.

Lemma yearly_view_value (n : nat) :
  getDisplaySchedule show_fraction Yearly (Fin (inject_Z (Z.of_nat n))) schedule =
  Some (inl (map (fun y => year_summary y (year_rows schedule y))
               (seq 1 (Nat.min n (years_covered (List.length schedule)))))).
Proof.
  unfold getDisplaySchedule. rewrite for_loop_returns, Qfloor_Z, Nat2Z.id.
  cbn [option_map].
  pose proof (yearly_iter n 1 [] (le_n 1)) as H.
  change (Z.of_nat 1) with 1%Z in H. rewrite H. cbn [app].
  replace (Nat.min (1 + n - 1) (years_covered (List.length schedule)) - (1 - 1))%nat
    with (Nat.min n (years_covered (List.length schedule))) by lia.
  reflexivity.
Qed.

Lemma year_rows_concat :
  forall m : nat,
    List.concat (map (year_rows schedule) (seq 1 m)) = firstn (12 * m) schedule.
Proof.
  induction m as [|m IH]; [reflexivity|].
  rewrite seq_S, map_app, concat_app, IH. cbn [map List.concat Nat.add].
  rewrite app_nil_r. unfold year_rows.
  replace (S m - 1)%nat with m by lia.
  replace (12 * S m)%nat with (12 * m + 12)%nat by lia.
  rewrite firstn_plus. reflexivity.
Qed.

End DisplayProofs.

(** The views [getDisplaySchedule] builds from any schedule and a whole
    tenure [n] held by the form.  The yearly view has one summary for each
    of the first [n] years the schedule reaches into; the summary of year
    [y] is built from the rows of the months [12 (y - 1) + 1] to [12 y], and
    those groups of rows, put end to end, are the first [12 n] rows of the
    schedule: no row is left out or counted twice.  The monthly view is the
    first 60 rows, whatever the tenure. *)
Theorem getDisplaySchedule_views (show_fraction : Q -> string)
    (schedule : list AmortizationRow.t) (n : nat) (tenure : number) :
  exists years,
    getDisplaySchedule show_fraction Yearly (Fin (inject_Z (Z.of_nat n)))
      schedule = Some (inl years)
    /\ List.length years = Nat.min n (years_covered (List.length schedule))
    /\ (forall y : nat, (1 <= y <= List.length years)%nat ->
          nth_error years (y - 1) =
          Some (year_summary y (year_rows schedule y)))
    /\ List.concat (map (year_rows schedule) (seq 1 n)) =
       firstn (12 * n) schedule
    /\ getDisplaySchedule show_fraction Monthly tenure schedule =
       Some (inr (firstn 60 schedule)).
Proof.
  eexists. split; [apply yearly_view_value|].
  rewrite length_map, length_seq.
  split; [reflexivity|]. split; [|split].
  - intros y Hy. rewrite nth_error_map, nth_error_seq.
    destruct (Nat.ltb_spec (y - 1)
                (Nat.min n (years_covered (List.length schedule))));
      [|lia].
    cbn [option_map]. replace (1 + (y - 1))%nat with y by lia. reflexivity.
  - apply year_rows_concat.
  - unfold getDisplaySchedule. do 2 f_equal.
    rewrite (slice_nat schedule (Fin 0) (Fin 60) 0 60
               (num_eq_refl _) (num_eq_refl _)).
    rewrite Nat.min_0_l. cbn [skipn]. rewrite Nat.sub_0_r.
    destruct (Nat.le_ge_cases 60 (List.length schedule)) as [Hle|Hge].
    + rewrite Nat.min_l by exact Hle. reflexivity.
    + apply firstn_upto; lia.
Qed.

Lemma column_sum_const (f : AmortizationRow.t -> number) (c : Q) :
  forall (rows : list AmortizationRow.t) (acc : number) (a : Q),
    (forall row, In row rows -> f row = Fin c) -> acc =n= Fin a ->
    fold_left (fun sum month => (sum + f month)%js) rows acc
    =n= Fin (a + inject_Z (Z.of_nat (List.length rows)) * c).
Proof.
  induction rows as [|row rows IH]; intros acc a Hf Hacc.
  - cbn [fold_left List.length]. rewrite Hacc. cbn [num_eq].
    change (inject_Z (Z.of_nat 0)) with 0. ring.
  - cbn [fold_left].
    assert (Hstep : (acc + f row)%js =n= Fin (a + c)).
    { rewrite (Hf row (or_introl eq_refl)). fin_eval. }
    rewrite (IH _ _ (fun r Hr => Hf r (or_intror Hr)) Hstep).
    cbn [num_eq List.length].
    rewrite Nat2Z.inj_succ. unfold Z.succ. rewrite inject_Z_plus.
    change (inject_Z 1) with 1. ring.
Qed.

Lemma firstn_seq_min (n : nat) :
  forall a m : nat, firstn n (seq a m) = seq a (Nat.min n m).
Proof.
  induction n as [|n IH]; intros a m; [reflexivity|].
  destruct m as [|m]; [reflexivity|].
  cbn [seq firstn Nat.min]. rewrite IH. reflexivity.
Qed.

Lemma year_rows_of_map (f : nat -> AmortizationRow.t) (N y : nat) :
  (1 <= y)%nat -> (12 * y <= N)%nat ->
  year_rows (map f (seq 0 N)) y = map f (seq (12 * (y - 1)) 12).
Proof.
  intros Hy HN. unfold year_rows.
  rewrite skipn_map, skipn_seq, firstn_map, firstn_seq_min.
  cbn [Nat.add]. rewrite Nat.min_l by lia. reflexivity.
Qed.


(** ** Loans and investments never lose *)

Lemma interest_paid_nonneg (P r : Q) (N : Z) :
  0 < P -> 0 < r -> (0 < N)%Z ->
  let E := P * r * (1 + r) ^ N / ((1 + r) ^ N - 1) in
  forall k : nat, (Z.of_nat k <= N)%Z ->
    0 <= inject_Z (Z.of_nat k) * E - (P - balance_after P r E k).
Proof.
  intros HP Hr HN E. induction k as [|k IH]; intros Hk.
  - cbn [balance_after]. change (inject_Z (Z.of_nat 0)) with 0. lra.
  - pose proof (IH ltac:(lia)) as IHk.
    pose proof (balance_nonneg P r N HP Hr HN k ltac:(lia)) as HB.
    fold E in HB. cbn [balance_after]. cbv zeta.
    replace (Z.of_nat (S k)) with (Z.of_nat k + 1)%Z by lia.
    rewrite inject_Z_plus. change (inject_Z 1) with 1.
    assert (0 <= balance_after P r E k * r) by nra. lra.
Qed.



Lemma bernoulli (r : Q) (n : nat) :
  0 <= r -> 1 + inject_Z (Z.of_nat n) * r <= (1 + r) ^ Z.of_nat n.
Proof.
  intros Hr. induction n as [|n IH].
  - change (inject_Z (Z.of_nat 0)) with 0. change ((1 + r) ^ Z.of_nat 0) with 1.
    lra.
  - replace (Z.of_nat (S n)) with (Z.of_nat n + 1)%Z by lia.
    rewrite Qpower_plus by lra. change ((1 + r) ^ 1) with (1 + r).
    rewrite inject_Z_plus. change (inject_Z 1) with 1.
    assert (Hn : 0 <= inject_Z (Z.of_nat n)).
    { change 0 with (inject_Z 0). rewrite <- Zle_Qle. lia. }
    set (g := (1 + r) ^ Z.of_nat n) in *.
    set (m := inject_Z (Z.of_nat n)) in *.
    assert (0 <= m * r * r) by (apply Qmult_le_0_compat; nra).
    nra.
Qed.

Lemma annuity_factor_ge (r : Q) (n : Z) :
  0 < r -> (0 <= n)%Z -> inject_Z n <= ((1 + r) ^ n - 1) / r * (1 + r).
Proof.
  intros Hr Hn.
  pose proof (bernoulli r (Z.to_nat n) ltac:(lra)) as Hb.
  rewrite Z2Nat.id in Hb by lia.
  assert (Hq : inject_Z n <= ((1 + r) ^ n - 1) / r).
  { apply Qle_shift_div_l; lra. }
  assert (H0 : 0 <= inject_Z n).
  { change 0 with (inject_Z 0). rewrite <- Zle_Qle. exact Hn. }
  nra.
Qed.






(** ** Compound interest *)



(** ** Instances *)




